(** * The Georisques connector: a shallow embedding of [connector.py]

    [GeorisquesConnector.load_from_state] is a bounded crawl: a stack of URLs
    to visit, a set of visited URLs, a page budget, one browser page per
    URL, documents buffered and yielded in batches.  The embedding follows
    the source statement by statement.

    - The Python lists that are shared by reference ([self.to_visit_list] and
      its copy [to_visit]) live in a store of list objects, the attributes of
      the connector are part of the state that the run threads through, and
      the set [visited_links] is a [gset string].
    - The calls into Playwright, BeautifulSoup, [web_html_cleanup] and
      [urljoin] are the fields of a [World]: each returns a value or raises.
    - The body of the [try] statement is written in a state-and-exception
      monad whose state survives a raise, as Python's does.
    - Everything observable (pages opened and closed, navigations, batches
      yielded, the browser session) is appended to a trace.
    - The generator is driven to exhaustion by a consumer that does not touch
      the connector between two batches; [start_playwright] and
      [playwright.stop] are taken to return normally. *)

From Stdlib Require Import ZArith Lia Ascii.
From stdpp Require Import gmap strings list fin_maps.

Set Warnings "-clear-no-such-hyp".

Open Scope string_scope.
Open Scope list_scope.
Open Scope Z_scope.

(** ** Values *)

Inductive result (A : Type) : Type :=
| Ok (a : A)
| Raise (e : string).
Arguments Ok {A} a.
Arguments Raise {A} e.

Inductive DocumentSource : Type := GEORISQUES.

Record DocSection : Type := { link : string; text : string }.

Record Document : Type := {
  doc_id : string;
  sections : list DocSection;
  source : DocumentSource;
  semantic_identifier : string;
  metadata : list (string * string)
}.

(** What the iteration reads from the rendered page: the result of
    [web_html_cleanup(soup)] and the [href] of every [a] element that has
    one, in document order ([soup.find_all("a", href=True)]). *)
Record Soup : Type := {
  title : option string;
  cleaned_text : string;
  a_hrefs : list string
}.

(** The collaborators, per URL of the iteration that calls them. *)
Record World : Type := {
  new_page : string -> result unit;
  goto : string -> result unit;
  content : string -> result Soup;
  urljoin : string -> string -> result string;
  close : string -> result unit
}.

Inductive exception : Type :=
| ValueError (msg : string)
| RuntimeError (msg : string).

Inductive outcome : Type :=
| Returned
| Raised (exc : exception).

Inductive event : Type :=
| EvStartPlaywright
| EvPop (url : string)
| EvPageOpened (url : string)
| EvGoto (url : string)
| EvPageClose (url : string)
| EvLogError (msg : string)
| EvLogWarning
| EvYield (batch : list Document)
| EvStopPlaywright.

(** ** Python primitives *)

Definition MAX_PAGES_TO_VISIT : Z := 1000.

(** [s.endswith(suffix)] *)
Definition endswith (s suffix : string) : bool :=
  let n := String.length s in
  let m := String.length suffix in
  (m <=? n)%nat && String.eqb (String.substring (n - m) m s) suffix.

(** Truth value of a [str]. *)
Definition str_truthy (s : string) : bool := negb (String.eqb s "").

(** Truth value of an [Optional[str]]. *)
Definition opt_truthy (o : option string) : bool :=
  match o with
  | Some s => str_truthy s
  | None => false
  end.

(** [a or b] for an optional string [a]. *)
Definition py_or (a : option string) (b : string) : string :=
  match a with
  | Some s => if str_truthy s then s else b
  | None => b
  end.

(** [l.pop()]: the last element and the list without it; [None] stands for
    the empty list, on which the loop guard is false. *)
Fixpoint list_pop {A : Type} (l : list A) : option (list A * A) :=
  match l with
  | [] => None
  | x :: l' =>
      match list_pop l' with
      | None => Some ([], x)
      | Some (r, y) => Some (x :: r, y)
      end
  end.

(** [l.append(x)] *)
Definition list_append {A : Type} (l : list A) (x : A) : list A := l ++ [x].

(** ** The store of list objects *)

Definition loc : Type := positive.

Definition deref (h : gmap loc (list string)) (l : loc) : list string :=
  default [] (h !! l).

(** [l.copy()]: a new object with the same elements. *)
Definition list_copy (h : gmap loc (list string)) (l : loc)
  : gmap loc (list string) * loc :=
  let l' := fresh (dom h) in
  (<[l' := deref h l]> h, l').

Record GeorisquesConnector : Type := {
  self_batch_size : Z;
  self_loaded_count : Z;
  self_base_url : string;
  self_to_visit_list : loc
}.

Definition GEORISQUES_CONNECTOR_SINGLE : string := "single".

(** [GeorisquesConnector.__init__]: the fields are assigned (the list
    [[base_url]] is a new object) before the connector type is checked. *)
Definition init (h : gmap loc (list string))
    (base_url georisques_connector_type : string) (batch_size : Z)
  : gmap loc (list string) * result GeorisquesConnector :=
  let l := fresh (dom h) in
  let h' := <[l := [base_url]]> h in
  if String.eqb georisques_connector_type GEORISQUES_CONNECTOR_SINGLE
  then (h', Ok {| self_batch_size := batch_size; self_loaded_count := 0;
                  self_base_url := base_url; self_to_visit_list := l |})
  else (h', Raise "Only 'single' type is supported for this connector.").

(** ** The state of one run

    The attributes of the connector object ([self]), the list objects, and
    the local variables of [load_from_state] ([restart_playwright] is
    assigned once and never read).  A yielded [doc_batch] is not modified
    afterwards: the name is bound to a new list, so batches are values. *)

Record state : Type := {
  self : GeorisquesConnector;
  heap : gmap loc (list string);
  to_visit : loc;
  visited_links : gset string;
  loaded_count : Z;
  doc_batch : list Document;
  at_least_one_doc : bool;
  last_error : option string;
  trace : list event
}.

Definition frontier (st : state) : list string := deref (heap st) (to_visit st).

Definition set_frontier (l : list string) (st : state) : state :=
  {| self := self st;
     heap := <[to_visit st := l]> (heap st); to_visit := to_visit st;
     visited_links := visited_links st; loaded_count := loaded_count st;
     doc_batch := doc_batch st; at_least_one_doc := at_least_one_doc st;
     last_error := last_error st; trace := trace st |}.

Definition set_visited_links (v : gset string) (st : state) : state :=
  {| self := self st; heap := heap st; to_visit := to_visit st;
     visited_links := v; loaded_count := loaded_count st;
     doc_batch := doc_batch st; at_least_one_doc := at_least_one_doc st;
     last_error := last_error st; trace := trace st |}.

Definition set_loaded_count (n : Z) (st : state) : state :=
  {| self := self st; heap := heap st; to_visit := to_visit st;
     visited_links := visited_links st; loaded_count := n;
     doc_batch := doc_batch st; at_least_one_doc := at_least_one_doc st;
     last_error := last_error st; trace := trace st |}.

Definition set_doc_batch (b : list Document) (st : state) : state :=
  {| self := self st; heap := heap st; to_visit := to_visit st;
     visited_links := visited_links st; loaded_count := loaded_count st;
     doc_batch := b; at_least_one_doc := at_least_one_doc st;
     last_error := last_error st; trace := trace st |}.

Definition set_at_least_one_doc (b : bool) (st : state) : state :=
  {| self := self st; heap := heap st; to_visit := to_visit st;
     visited_links := visited_links st; loaded_count := loaded_count st;
     doc_batch := doc_batch st; at_least_one_doc := b;
     last_error := last_error st; trace := trace st |}.

Definition set_last_error (e : option string) (st : state) : state :=
  {| self := self st; heap := heap st; to_visit := to_visit st;
     visited_links := visited_links st; loaded_count := loaded_count st;
     doc_batch := doc_batch st; at_least_one_doc := at_least_one_doc st;
     last_error := e; trace := trace st |}.

Definition log (e : event) (st : state) : state :=
  {| self := self st; heap := heap st; to_visit := to_visit st;
     visited_links := visited_links st; loaded_count := loaded_count st;
     doc_batch := doc_batch st; at_least_one_doc := at_least_one_doc st;
     last_error := last_error st; trace := trace st ++ [e] |}.

(** ** The monad of the [try] body: state that survives a raise *)

Definition M (A : Type) : Type := state -> state * result A.

Definition ret {A : Type} (a : A) : M A := fun st => (st, Ok a).

Definition bind {A B : Type} (m : M A) (k : A -> M B) : M B :=
  fun st =>
    match m st with
    | (st', Ok a) => k a st'
    | (st', Raise e) => (st', Raise e)
    end.

Notation "x <- m ;; k" := (bind m (fun x => k))
  (at level 100, m at next level, right associativity).
Notation "m ;;; k" := (bind m (fun _ => k))
  (at level 100, right associativity).

Definition call {A : Type} (r : result A) : M A := fun st => (st, r).

Definition update (f : state -> state) : M unit := fun st => (f st, Ok tt).

Definition read {A : Type} (f : state -> A) : M A := fun st => (st, Ok (f st)).

(** [for x in l: body(x)] *)
Fixpoint for_each {A : Type} (l : list A) (body : A -> M unit) : M unit :=
  match l with
  | [] => ret tt
  | x :: l' => body x ;;; for_each l' body
  end.

(** ** The run *)

(** [Document(id=current_url, sections=[Section(...)], ...)] *)
Definition make_document (current_url : string) (parsed_html : Soup) : Document :=
  {| doc_id := current_url;
     sections := [ {| link := current_url; text := cleaned_text parsed_html |} ];
     source := GEORISQUES;
     semantic_identifier := py_or (title parsed_html) current_url;
     metadata := [] |}.

Section Run.

Variable w : World.

(** One turn of [for link in soup.find_all("a", href=True)]. *)
Definition pdf_link (current_url href : string) : M unit :=
  if str_truthy href && endswith href ".pdf" then
    pdf_url <- call (urljoin w current_url href) ;;
    visited <- read visited_links ;;
    if decide (pdf_url ∈ visited) then ret tt
    else update (fun st => set_frontier (list_append (frontier st) pdf_url) st)
  else ret tt.

(** The body of the [try] statement, lines 82 to 110. *)
Definition try_body (current_url : string) : M unit :=
  call (new_page w current_url) ;;;
  update (log (EvPageOpened current_url)) ;;;
  update (log (EvGoto current_url)) ;;;
  call (goto w current_url) ;;;
  soup <- call (content w current_url) ;;
  update (fun st =>
    set_doc_batch (list_append (doc_batch st) (make_document current_url soup)) st) ;;;
  for_each (a_hrefs soup) (pdf_link current_url) ;;;
  update (log (EvPageClose current_url)) ;;;
  call (close w current_url) ;;;
  update (set_at_least_one_doc true).

Definition error_message (current_url e : string) : string :=
  ("Failed to fetch '" ++ current_url ++ "': " ++ e)%string.

(** [if len(doc_batch) >= self.batch_size: yield doc_batch; doc_batch = []] *)
Definition flush_if_full (st : state) : state :=
  if self_batch_size (self st) <=? Z.of_nat (length (doc_batch st))
  then set_doc_batch [] (log (EvYield (doc_batch st)) st)
  else st.

(** One evaluation of the loop guard and, when it holds, of the loop body:
    [inl] is the state at the next evaluation of the guard, [inr] the state
    on leaving the loop (guard false, or [break]).  The guard and
    [to_visit.pop()] read the same list; the pop takes effect after the
    budget check, as in the source. *)
Definition iteration (st : state) : state + state :=
  match list_pop (frontier st) with
  | None => inr st
  | Some (rest, current_url) =>
      let st := set_loaded_count (loaded_count st + 1) st in
      if MAX_PAGES_TO_VISIT <? loaded_count st then inr (log EvLogWarning st)
      else
        let st := log (EvPop current_url) (set_frontier rest st) in
        if decide (current_url ∈ visited_links st) then inl st
        else
          let st := set_visited_links ({[current_url]} ∪ visited_links st) st in
          match try_body current_url st with
          | (st, Raise e) =>
              let msg := error_message current_url e in
              inl (log (EvLogError msg) (set_last_error (Some msg) st))
          | (st, Ok _) => inl (flush_if_full st)
          end
  end.

(** [while to_visit: ...], by fuel. *)
Fixpoint while_loop (fuel : nat) (st : state) : option state :=
  match fuel with
  | O => None
  | S fuel' =>
      match iteration st with
      | inr st' => Some st'
      | inl st' => while_loop fuel' st'
      end
  end.

(** The budget bounds the number of turns: this much fuel is never used up
    ([while_loop_budget] below). *)
Definition budget_fuel (st : state) : nat :=
  S (Z.to_nat (MAX_PAGES_TO_VISIT - loaded_count st)).

Definition run_loop (st : state) : state :=
  match while_loop (budget_fuel st) st with
  | Some st' => st'
  | None => st
  end.

(** Lines 121 to 129. *)
Definition finish (st : state) : state * outcome :=
  let st := match doc_batch st with
            | [] => st
            | _ :: _ => log (EvYield (doc_batch st)) st
            end in
  let st := log EvStopPlaywright st in
  if negb (at_least_one_doc st) then
    if opt_truthy (last_error st)
    then (st, Raised (RuntimeError (default "" (last_error st))))
    else (st, Raised (RuntimeError "No valid pages found."))
  else (st, Returned).

(** Lines 56 to 66: the locals before the loop (those assigned after the
    emptiness check are not read before it). *)
Definition initial_state (c : GeorisquesConnector) (h : gmap loc (list string))
  : state :=
  let '(h, to_visit) := list_copy h (self_to_visit_list c) in
  {| self := c; heap := h; to_visit := to_visit; visited_links := ∅;
     loaded_count := self_loaded_count c; doc_batch := [];
     at_least_one_doc := false; last_error := None; trace := [] |}.

Definition load_from_state (c : GeorisquesConnector) (h : gmap loc (list string))
  : state * outcome :=
  let st := initial_state c h in
  match frontier st with
  | [] => (st, Raised (ValueError "No URLs to visit"))
  | _ :: _ => finish (run_loop (log EvStartPlaywright st))
  end.

End Run.

(** ** Observations on a trace *)

Definition is_goto (e : event) : option string :=
  match e with EvGoto u => Some u | _ => None end.
Definition is_pop (e : event) : option string :=
  match e with EvPop u => Some u | _ => None end.
Definition is_opened (e : event) : option string :=
  match e with EvPageOpened u => Some u | _ => None end.
Definition is_close (e : event) : option string :=
  match e with EvPageClose u => Some u | _ => None end.
Definition is_yield (e : event) : option (list Document) :=
  match e with EvYield b => Some b | _ => None end.
Definition is_start (e : event) : option unit :=
  match e with EvStartPlaywright => Some tt | _ => None end.
Definition is_error (e : event) : option string :=
  match e with EvLogError m => Some m | _ => None end.

(** The URLs passed to [page.goto], the URLs popped, the pages opened, the
    pages closed, the batches yielded, the browser sessions started, the
    failures logged. *)
Definition gotos (tr : list event) : list string := omap is_goto tr.
Definition pops (tr : list event) : list string := omap is_pop tr.
Definition opened (tr : list event) : list string := omap is_opened tr.
Definition closed (tr : list event) : list string := omap is_close tr.
Definition yields (tr : list event) : list (list Document) := omap is_yield tr.
Definition starts (tr : list event) : list unit := omap is_start tr.
Definition errors (tr : list event) : list string := omap is_error tr.

(** Every document appended so far, in order: those already yielded and
    those still in [doc_batch]. *)
Definition produced (st : state) : list Document :=
  concat (yields (trace st)) ++ doc_batch st.

(** ** One attempt, read off the world *)

Section Attempt.

Variable w : World.

(** The URLs that the [for link in ...] loop resolves before the first
    raise of [urljoin], and that raise if there is one. *)
Fixpoint resolve (current_url : string) (hrefs : list string)
  : list string * option string :=
  match hrefs with
  | [] => ([], None)
  | href :: hrefs' =>
      if str_truthy href && endswith href ".pdf" then
        match urljoin w current_url href with
        | Raise e => ([], Some e)
        | Ok pdf_url =>
            let '(l, r) := resolve current_url hrefs' in (pdf_url :: l, r)
        end
      else resolve current_url hrefs'
  end.

Definition raise_of (r : option string) : result unit :=
  match r with
  | None => Ok tt
  | Some e => Raise e
  end.

(** How far the [try] body gets for a URL.  [closing] tells whether
    [page.close()] was reached. *)
Inductive attempt : Type :=
| NotOpened (e : string)
| NotRendered (e : string)
| LateFailure (soup : Soup) (links : list string) (closing : bool) (e : string)
| Success (soup : Soup) (links : list string).

Definition attempt_of (u : string) : attempt :=
  match new_page w u with
  | Raise e => NotOpened e
  | Ok _ =>
      match goto w u with
      | Raise e => NotRendered e
      | Ok _ =>
          match content w u with
          | Raise e => NotRendered e
          | Ok soup =>
              match resolve u (a_hrefs soup) with
              | (links, Some e) => LateFailure soup links false e
              | (links, None) =>
                  match close w u with
                  | Raise e => LateFailure soup links true e
                  | Ok _ => Success soup links
                  end
              end
          end
      end
  end.

Definition attempt_result (a : attempt) : result unit :=
  match a with
  | NotOpened e | NotRendered e | LateFailure _ _ _ e => Raise e
  | Success _ _ => Ok tt
  end.

Definition attempt_events (u : string) (a : attempt) : list event :=
  match a with
  | NotOpened _ => []
  | NotRendered _ | LateFailure _ _ false _ => [EvPageOpened u; EvGoto u]
  | LateFailure _ _ true _ | Success _ _ =>
      [EvPageOpened u; EvGoto u; EvPageClose u]
  end.

Definition attempt_docs (u : string) (a : attempt) : list Document :=
  match a with
  | NotOpened _ | NotRendered _ => []
  | LateFailure soup _ _ _ | Success soup _ => [make_document u soup]
  end.

Definition attempt_links (a : attempt) : list string :=
  match a with
  | NotOpened _ | NotRendered _ => []
  | LateFailure _ links _ _ | Success _ links => links
  end.

Definition attempt_ok (a : attempt) : bool :=
  match a with Success _ _ => true | _ => false end.

(** The links a URL leads to, and the URLs reachable from the seeds. *)
Definition links_of (u : string) : list string := attempt_links (attempt_of u).

Inductive reachable (seeds : list string) : string -> Prop :=
| reachable_seed u : u ∈ seeds -> reachable seeds u
| reachable_link u v :
    reachable seeds u -> v ∈ links_of u -> reachable seeds v.

End Attempt.

(** How a state relates to an earlier one of the same run: what was pushed,
    appended and logged in between.  Only the list object [to_visit] and the
    locals named here differ. *)
Record extends (st st' : state) (pushes : list string) (docs : list Document)
    (evs : list event) (ok : bool) : Prop := {
  ext_self : self st' = self st;
  ext_to_visit : to_visit st' = to_visit st;
  ext_visited : visited_links st' = visited_links st;
  ext_loaded_count : loaded_count st' = loaded_count st;
  ext_last_error : last_error st' = last_error st;
  ext_heap : forall l, l ≠ to_visit st -> heap st' !! l = heap st !! l;
  ext_frontier : frontier st' = frontier st ++ pushes;
  ext_doc_batch : doc_batch st' = doc_batch st ++ docs;
  ext_at_least_one_doc : at_least_one_doc st' = at_least_one_doc st || ok;
  ext_trace : trace st' = trace st ++ evs
}.


(** The state after [to_visit.pop()] returned [u], and the state on entering
    the [try] statement. *)
Definition popped (rest : list string) (u : string) (st : state) : state :=
  log (EvPop u) (set_frontier rest (set_loaded_count (loaded_count st + 1) st)).

Definition entered (rest : list string) (u : string) (st : state) : state :=
  set_visited_links ({[u]} ∪ visited_links st) (popped rest u st).

(** The end of an iteration whose [try] body stopped in [st1]. *)
Definition settle (u : string) (r : result unit) (st1 : state) : state :=
  match r with
  | Raise e =>
      log (EvLogError (error_message u e))
          (set_last_error (Some (error_message u e)) st1)
  | Ok _ => flush_if_full st1
  end.


(** The two ways an iteration goes on to the next one, and the big-step
    reading of the [while] statement. *)
Inductive step (w : World) (st st' : state) : Prop :=
| step_skip rest u :
    frontier st = rest ++ [u] ->
    loaded_count st + 1 <= MAX_PAGES_TO_VISIT ->
    u ∈ visited_links st ->
    st' = popped rest u st ->
    step w st st'
| step_attempt rest u st1 :
    frontier st = rest ++ [u] ->
    loaded_count st + 1 <= MAX_PAGES_TO_VISIT ->
    u ∉ visited_links st ->
    extends (entered rest u st) st1
      (filter (fun v => v ∉ {[u]} ∪ visited_links st) (links_of w u))
      (attempt_docs u (attempt_of w u))
      (attempt_events u (attempt_of w u))
      (attempt_ok (attempt_of w u)) ->
    st' = settle u (attempt_result (attempt_of w u)) st1 ->
    step w st st'.

Inductive leave (st st' : state) : Prop :=
| leave_empty : frontier st = [] -> st' = st -> leave st st'
| leave_budget :
    frontier st ≠ [] ->
    MAX_PAGES_TO_VISIT < loaded_count st + 1 ->
    st' = log EvLogWarning (set_loaded_count (loaded_count st + 1) st) ->
    leave st st'.

Inductive loop_exec (w : World) : state -> state -> Prop :=
| exec_leave st st' : iteration w st = inr st' -> loop_exec w st st'
| exec_step st st1 st' :
    iteration w st = inl st1 -> loop_exec w st1 st' -> loop_exec w st st'.


(** What one iteration that popped [u] changed, as seen through the
    observations: [links], [docs], [evs] and [ok] are what the attempt on [u]
    resolved, appended, logged and concluded (nothing when [u] is skipped). *)
Record stepped (st st' : state) (rest : list string) (u : string)
    (links : list string) (docs : list Document) (evs : list event)
    (ok : bool) : Prop := {
  sv_frontier0 : frontier st = rest ++ [u];
  sv_budget : loaded_count st + 1 <= MAX_PAGES_TO_VISIT;
  sv_self : self st' = self st;
  sv_to_visit : to_visit st' = to_visit st;
  sv_heap : forall l, l ≠ to_visit st -> heap st' !! l = heap st !! l;
  sv_loaded_count : loaded_count st' = loaded_count st + 1;
  sv_visited : visited_links st' = {[u]} ∪ visited_links st;
  sv_frontier :
    frontier st' = rest ++ filter (fun v => v ∉ visited_links st') links;
  sv_produced : produced st' = produced st ++ docs;
  sv_at_least_one_doc : at_least_one_doc st' = at_least_one_doc st || ok;
  sv_pops : pops (trace st') = pops (trace st) ++ [u];
  sv_gotos : gotos (trace st') = gotos (trace st) ++ gotos evs;
  sv_opened : opened (trace st') = opened (trace st) ++ opened evs;
  sv_closed : closed (trace st') = closed (trace st) ++ closed evs;
  sv_starts : starts (trace st') = starts (trace st)
}.


(** The state before the first evaluation of the loop guard. *)
Definition loop_entry (c : GeorisquesConnector) (h : gmap loc (list string))
  : state :=
  log EvStartPlaywright (initial_state c h).

(** The invariant of the loop, with the list [vs] of the URLs attempted so
    far, in order: everything observed is the sum of what the attempts did. *)
Record attempted (w : World) (st : state) (vs : list string) : Prop := {
  at_nodup : NoDup vs;
  at_visited : visited_links st = list_to_set vs;
  at_gotos :
    gotos (trace st)
    = flat_map (fun u => gotos (attempt_events u (attempt_of w u))) vs;
  at_opened :
    opened (trace st)
    = flat_map (fun u => opened (attempt_events u (attempt_of w u))) vs;
  at_closed :
    closed (trace st)
    = flat_map (fun u => closed (attempt_events u (attempt_of w u))) vs;
  at_produced :
    produced st = flat_map (fun u => attempt_docs u (attempt_of w u)) vs;
  at_ok :
    at_least_one_doc st = existsb (fun u => attempt_ok (attempt_of w u)) vs;
  at_starts : starts (trace st) = [tt]
}.

(** The traversal invariant: nothing known is lost, nothing unknown appears. *)
Record closed_under_links (w : World) (seeds : list string) (st : state)
  : Prop := {
  cl_seeds : forall u, u ∈ seeds -> u ∈ visited_links st \/ u ∈ frontier st;
  cl_links : forall u v, u ∈ visited_links st -> v ∈ links_of w u ->
             v ∈ visited_links st \/ v ∈ frontier st;
  cl_reachable : forall u, u ∈ visited_links st \/ u ∈ frontier st ->
                 reachable w seeds u
}.


(** The page budget as seen from the trace: the pops never outnumber the
    increments of [loaded_count], and a pop only happens within the budget. *)
Definition within_budget (c : GeorisquesConnector) (st : state) : Prop :=
  Z.of_nat (length (pops (trace st))) + self_loaded_count c <= loaded_count st
  /\ (pops (trace st) = []
      \/ Z.of_nat (length (pops (trace st))) + self_loaded_count c
         <= MAX_PAGES_TO_VISIT).

(** Only the copy made by the run is written to. *)
Definition framed (c : GeorisquesConnector) (h : gmap loc (list string))
    (st : state) : Prop :=
  self st = c
  /\ to_visit st = snd (list_copy h (self_to_visit_list c))
  /\ forall l, l ≠ snd (list_copy h (self_to_visit_list c)) ->
               heap st !! l = h !! l.

(** For the examples: a connector whose list of URLs is the object at
    location 1, and stores holding that list. *)
Definition connector1 (batch_size : Z) : GeorisquesConnector :=
  {| self_batch_size := batch_size; self_loaded_count := 0;
     self_base_url := "https://www.georisques.gouv.fr";
     self_to_visit_list := 1%positive |}.

Definition store1 (urls : list string) : gmap loc (list string) :=
  {[ 1%positive := urls ]}.

(** A connector whose [loaded_count] has reached the budget. *)
Definition spent_connector : GeorisquesConnector :=
  {| self_batch_size := 10; self_loaded_count := 1000;
     self_base_url := "https://www.georisques.gouv.fr";
     self_to_visit_list := 1%positive |}.

Definition blank_page : Soup :=
  {| title := None; cleaned_text := ""; a_hrefs := [] |}.

(** A world in which every call succeeds and no page has links. *)
Definition quiet_world : World :=
  {| new_page := fun _ => Ok tt;
     goto := fun _ => Ok tt;
     content := fun _ => Ok blank_page;
     urljoin := fun _ href => Ok href;
     close := fun _ => Ok tt |}.


(** [last_error] is the failure logged last, and every logged failure is a
    message built at line 113. *)
Definition last_error_logged (st : state) : Prop :=
  last_error st = last (errors (trace st))
  /\ Forall (fun m => exists u e, m = error_message u e) (errors (trace st)).

(** A state whose frontier is the given list, for the examples. *)
Definition state_with_frontier (urls : list string) : state :=
  loop_entry (connector1 10) (store1 urls).


(** Whether [context.new_page()] returned, so that [page.goto] was called. *)
Definition attempt_opened (a : attempt) : bool :=
  match a with NotOpened _ => false | _ => true end.

(** A world whose browser context cannot open a page any more. *)
Definition no_page_world : World :=
  {| new_page := fun _ => Raise "Target page, context or browser has been closed";
     goto := fun _ => Ok tt;
     content := fun _ => Ok blank_page;
     urljoin := fun _ href => Ok href;
     close := fun _ => Ok tt |}.


(** A world in which every navigation times out. *)
Definition timeout_world : World :=
  {| new_page := fun _ => Ok tt;
     goto := fun _ => Raise "Timeout 30000ms exceeded.";
     content := fun _ => Ok blank_page;
     urljoin := fun _ href => Ok href;
     close := fun _ => Ok tt |}.

Definition seed_url : string := "https://www.georisques.gouv.fr".
Definition pdf_url1 : string := "https://www.georisques.gouv.fr/doc.pdf".

(** A world whose seed page links to a PDF and then has an anchor on which
    [urljoin] raises [ValueError]; absolute links resolve to themselves. *)
Definition bad_href_world : World :=
  {| new_page := fun _ => Ok tt;
     goto := fun _ => Ok tt;
     content := fun u =>
       if String.eqb u seed_url
       then Ok {| title := Some "Accueil"; cleaned_text := "Georisques";
                  a_hrefs := [pdf_url1; "//[.pdf"] |}
       else Ok blank_page;
     urljoin := fun _ href =>
       if String.eqb href "//[.pdf" then Raise "Invalid IPv6 URL" else Ok href;
     close := fun _ => Ok tt |}.


(** The test of line 104 on an [href]. *)
Definition is_pdf_href (href : string) : bool :=
  str_truthy href && endswith href ".pdf".

(** Following the words of the specification ("anchor elements whose target
    path ends in .pdf"), to be compared with [is_pdf_href]: the path of a
    link target is what precedes its query and its fragment. *)
Fixpoint target_path (href : string) : string :=
  match href with
  | EmptyString => EmptyString
  | String ch rest =>
      if Ascii.eqb ch "?"%char || Ascii.eqb ch "#"%char then EmptyString
      else String ch (target_path rest)
  end.

Definition spec_is_pdf_target (href : string) : bool :=
  endswith (target_path href) ".pdf".

(** The URLs that the specification's reading would push for a page: the
    resolved targets whose path ends in [.pdf] and that are not visited. *)
Definition spec_pdf_pushes (w : World) (u : string) (visited : gset string)
    (hrefs : list string) : list string :=
  filter (fun v => v ∉ visited)
    (omap (fun href => match urljoin w u href with
                       | Ok v => Some v
                       | Raise _ => None
                       end)
          (filter (fun href => spec_is_pdf_target href = true) hrefs)).

(** A world whose seed page links to a PDF with a query string; [urljoin]
    resolves the relative link against the site. *)
Definition query_world : World :=
  {| new_page := fun _ => Ok tt;
     goto := fun _ => Ok tt;
     content := fun u =>
       if String.eqb u seed_url
       then Ok {| title := Some "Accueil"; cleaned_text := "Georisques";
                  a_hrefs := ["rapport.pdf?v=1"] |}
       else Ok blank_page;
     urljoin := fun u href => Ok (u ++ "/" ++ href)%string;
     close := fun _ => Ok tt |}.


(** Whether the page was rendered and parsed, so that its Document was
    appended (line 91). *)
Definition attempt_rendered (a : attempt) : bool :=
  match a with
  | NotOpened _ | NotRendered _ => false
  | LateFailure _ _ _ _ | Success _ _ => true
  end.


(** No raise once the Document of a page is appended: [urljoin] accepts
    every PDF link of the page and [page.close()] returns. *)
Definition no_late_failure (w : World) : Prop :=
  forall u, attempt_rendered (attempt_of w u) = true ->
            attempt_ok (attempt_of w u) = true.

(** The batch invariant of the loop under [no_late_failure]: the batches
    yielded so far are full and [doc_batch] is not. *)
Definition batches_full (c : GeorisquesConnector) (st : state) : Prop :=
  self st = c
  /\ Forall (fun b => Z.of_nat (length b) = self_batch_size c)
            (yields (trace st))
  /\ Z.of_nat (length (doc_batch st)) < self_batch_size c.


(** The events of the browser session, as opposed to those of the loop. *)
Definition is_session_event (e : event) : bool :=
  match e with
  | EvStartPlaywright | EvStopPlaywright => true
  | _ => false
  end.


(** Whether [page.close()] was called (line 109). *)
Definition attempt_closing (a : attempt) : bool :=
  match a with
  | LateFailure _ _ true _ | Success _ _ => true
  | _ => false
  end.


Definition plan_url : string := "https://www.georisques.gouv.fr/plan.pdf".
Definition other_url : string := "https://www.georisques.gouv.fr/autre".

(** A world whose seed page has four anchors: a relative link to a PDF, a
    link to an HTML page, an absolute link to a PDF and a link whose
    extension is in capitals.  [urljoin] keeps an absolute link and puts a
    relative one after the current URL; the navigation to [plan_url]
    fails. *)
Definition linked_world : World :=
  {| new_page := fun _ => Ok tt;
     goto := fun u =>
       if String.eqb u plan_url then Raise "net::ERR_ABORTED" else Ok tt;
     content := fun u =>
       if String.eqb u seed_url
       then Ok {| title := Some "Accueil"; cleaned_text := "Georisques";
                  a_hrefs := ["/plan.pdf"; "mentions.html"; pdf_url1;
                              "carte.PDF"] |}
       else Ok blank_page;
     urljoin := fun u href =>
       if String.prefix "https://" href then Ok href
       else Ok (u ++ href)%string;
     close := fun _ => Ok tt |}.

(** A state in the middle of a run: [pdf_url1] is already visited, and the
    seed page is on top of another URL. *)
Definition visiting_state : state :=
  set_visited_links {[pdf_url1]} (state_with_frontier [other_url; seed_url]).





(** A generator that its consumer closes, or drops, while it is suspended at
    a [yield]: nothing after that [yield] is executed, since the [yield]s of
    lines 118 and 122 are outside any [try ... finally].  With [tr] the trace
    of the run driven to exhaustion, [closed_after k tr] is the trace of the
    same run closed at its [k+1]-th [yield]: the events up to that [yield];
    [None] when the run yields fewer batches. *)
Fixpoint closed_after (k : nat) (tr : list event) : option (list event) :=
  match tr with
  | [] => None
  | e :: tr' =>
      match is_yield e, k with
      | Some _, O => Some [e]
      | Some _, S k' => cons e <$> closed_after k' tr'
      | None, _ => cons e <$> closed_after k tr'
      end
  end.

(** * Properties *)

(** ** Lists as stacks *)

Lemma list_pop_app {A : Type} (l : list A) (x : A) :
  list_pop (list_append l x) = Some (l, x).
Proof.
  unfold list_append. induction l as [|y l IH]; simpl; [reflexivity|].
  rewrite IH. reflexivity.
Qed.

Lemma list_pop_None {A : Type} (l : list A) : list_pop l = None <-> l = [].
Proof.
  split; [|intros ->; reflexivity].
  destruct l as [|x l]; [reflexivity|]. simpl.
  destruct (list_pop l) as [[r y]|]; discriminate.
Qed.

Lemma list_pop_Some {A : Type} (l r : list A) (x : A) :
  list_pop l = Some (r, x) <-> l = r ++ [x].
Proof.
  split.
  - revert r. induction l as [|y l IH]; intros r H; simpl in H; [discriminate|].
    destruct (list_pop l) as [[r' z]|] eqn:E.
    + inversion H; subst. rewrite (IH r' eq_refl). reflexivity.
    + inversion H; subst. apply list_pop_None in E. subst. reflexivity.
  - intros ->. apply list_pop_app.
Qed.

(** ** The store *)

Lemma deref_insert_eq (h : gmap loc (list string)) l xs :
  deref (<[l := xs]> h) l = xs.
Proof. unfold deref. rewrite lookup_insert_eq. reflexivity. Qed.

Lemma deref_insert_ne (h : gmap loc (list string)) l l' xs :
  l ≠ l' -> deref (<[l := xs]> h) l' = deref h l'.
Proof. intros H. unfold deref. rewrite lookup_insert_ne by done. reflexivity. Qed.

Lemma frontier_set_frontier l st : frontier (set_frontier l st) = l.
Proof. unfold frontier. simpl. apply deref_insert_eq. Qed.

Lemma list_copy_fresh (h : gmap loc (list string)) l :
  snd (list_copy h l) ∉ dom h.
Proof. simpl. apply is_fresh. Qed.

(** ** Composition of effects *)

Lemma extends_refl st : extends st st [] [] [] false.
Proof.
  split; try reflexivity.
  - symmetry. apply app_nil_r.
  - symmetry. apply app_nil_r.
  - symmetry. apply orb_false_r.
  - symmetry. apply app_nil_r.
Qed.

Lemma extends_trans st1 st2 st3 p1 p2 d1 d2 e1 e2 o1 o2 :
  extends st1 st2 p1 d1 e1 o1 -> extends st2 st3 p2 d2 e2 o2 ->
  extends st1 st3 (p1 ++ p2) (d1 ++ d2) (e1 ++ e2) (o1 || o2).
Proof.
  intros [] []. split.
  - congruence.
  - congruence.
  - congruence.
  - congruence.
  - congruence.
  - intros l Hl. rewrite ext_heap1 by congruence. auto.
  - rewrite ext_frontier1, ext_frontier0. apply eq_sym, app_assoc.
  - rewrite ext_doc_batch1, ext_doc_batch0. apply eq_sym, app_assoc.
  - rewrite ext_at_least_one_doc1, ext_at_least_one_doc0. apply eq_sym, orb_assoc.
  - rewrite ext_trace1, ext_trace0. apply eq_sym, app_assoc.
Qed.

Lemma extends_log e st : extends st (log e st) [] [] [e] false.
Proof.
  split; try reflexivity.
  - symmetry. apply app_nil_r.
  - symmetry. apply app_nil_r.
  - symmetry. apply orb_false_r.
Qed.

Lemma extends_push v st :
  extends st (set_frontier (list_append (frontier st) v) st) [v] [] [] false.
Proof.
  split; try reflexivity.
  - intros l Hl. simpl. rewrite lookup_insert_ne by done. reflexivity.
  - apply frontier_set_frontier.
  - symmetry. apply app_nil_r.
  - symmetry. apply orb_false_r.
  - symmetry. apply app_nil_r.
Qed.

Lemma extends_append_doc d st :
  extends st (set_doc_batch (list_append (doc_batch st) d) st) [] [d] [] false.
Proof.
  split; try reflexivity.
  - symmetry. apply app_nil_r.
  - symmetry. apply orb_false_r.
  - symmetry. apply app_nil_r.
Qed.

Lemma extends_set_ok st :
  extends st (set_at_least_one_doc true st) [] [] [] true.
Proof.
  split; try reflexivity.
  - symmetry. apply app_nil_r.
  - symmetry. apply app_nil_r.
  - symmetry. apply orb_true_r.
  - symmetry. apply app_nil_r.
Qed.

Lemma extends_eq st st' p p' d d' e e' o o' :
  extends st st' p d e o -> p = p' -> d = d' -> e = e' -> o = o' ->
  extends st st' p' d' e' o'.
Proof. intros H -> -> -> ->. exact H. Qed.

(** ** The [try] body *)

Section TryBody.

Variable w : World.

Lemma for_each_pdf_link u hrefs : forall st,
  exists st',
    for_each hrefs (pdf_link w u) st = (st', raise_of (snd (resolve w u hrefs)))
    /\ extends st st'
         (filter (fun v => v ∉ visited_links st) (fst (resolve w u hrefs)))
         [] [] false.
Proof.
  induction hrefs as [|href hrefs IH]; intros st; simpl.
  - exists st. split; [reflexivity | apply extends_refl].
  - unfold bind, pdf_link at 1.
    destruct (str_truthy href && endswith href ".pdf") eqn:Hpdf.
    + unfold bind, call. destruct (urljoin w u href) as [pdf_url|e] eqn:Hjoin.
      * unfold read. destruct (resolve w u hrefs) as [l r] eqn:Hres. simpl.
        rewrite filter_cons.
        destruct (decide (pdf_url ∈ visited_links st)) as [Hin|Hin].
        -- unfold ret. destruct (IH st) as (st' & Hrun & Hext).
           simpl in Hrun, Hext. exists st'. split; [exact Hrun|].
           destruct (decide (pdf_url ∉ visited_links st)); [contradiction|].
           exact Hext.
        -- unfold update.
           set (st1 := set_frontier (list_append (frontier st) pdf_url) st).
           destruct (IH st1) as (st' & Hrun & Hext).
           simpl in Hrun, Hext. exists st'. split; [exact Hrun|].
           destruct (decide (pdf_url ∉ visited_links st)); [|contradiction].
           eapply extends_eq;
             [exact (extends_trans _ _ _ _ _ _ _ _ _ _ _
                       (extends_push pdf_url st) Hext) | reflexivity ..].
      * exists st. split; [reflexivity | apply extends_refl].
    + unfold ret. apply IH.
Qed.

Lemma try_body_spec u st :
  exists st',
    try_body w u st = (st', attempt_result (attempt_of w u))
    /\ extends st st'
         (filter (fun v => v ∉ visited_links st) (attempt_links (attempt_of w u)))
         (attempt_docs u (attempt_of w u))
         (attempt_events u (attempt_of w u))
         (attempt_ok (attempt_of w u)).
Proof.
  unfold try_body, attempt_of, bind, call, update.
  destruct (new_page w u) as [[]|e].
  2:{ exists st. split; [reflexivity | apply extends_refl]. }
  set (st1 := log (EvGoto u) (log (EvPageOpened u) st)).
  assert (H1 : extends st st1 [] [] [EvPageOpened u; EvGoto u] false).
  { eapply extends_eq;
      [exact (extends_trans _ _ _ _ _ _ _ _ _ _ _
                (extends_log (EvPageOpened u) st)
                (extends_log (EvGoto u) _)) | reflexivity ..]. }
  destruct (goto w u) as [[]|e].
  2:{ exists st1. split; [reflexivity | exact H1]. }
  destruct (content w u) as [soup|e].
  2:{ exists st1. split; [reflexivity | exact H1]. }
  set (st2 := set_doc_batch (list_append (doc_batch st1) (make_document u soup)) st1).
  assert (H2 : extends st st2 [] [make_document u soup]
                 [EvPageOpened u; EvGoto u] false).
  { eapply extends_eq;
      [exact (extends_trans _ _ _ _ _ _ _ _ _ _ _ H1
                (extends_append_doc (make_document u soup) st1))
      | reflexivity ..]. }
  destruct (for_each_pdf_link u (a_hrefs soup) st2) as (st3 & Hrun & H3).
  rewrite Hrun. change (visited_links st2) with (visited_links st) in H3.
  destruct (resolve w u (a_hrefs soup)) as [links [e|]]; simpl in *.
  { exists st3. split; [reflexivity|].
    eapply extends_eq;
      [exact (extends_trans _ _ _ _ _ _ _ _ _ _ _ H2 H3) | reflexivity ..]. }
  assert (H4 : extends st (log (EvPageClose u) st3)
                 (filter (fun v => v ∉ visited_links st) links)
                 [make_document u soup]
                 [EvPageOpened u; EvGoto u; EvPageClose u] false).
  { eapply extends_eq;
      [exact (extends_trans _ _ _ _ _ _ _ _ _ _ _
                (extends_trans _ _ _ _ _ _ _ _ _ _ _ H2 H3)
                (extends_log (EvPageClose u) st3))
      | simpl; rewrite ?app_nil_r; reflexivity ..]. }
  destruct (close w u) as [[]|e].
  2:{ eexists. split; [reflexivity | exact H4]. }
  eexists. split; [reflexivity|].
  eapply extends_eq;
    [exact (extends_trans _ _ _ _ _ _ _ _ _ _ _ H4 (extends_set_ok _))
    | simpl; rewrite ?app_nil_r; reflexivity ..].
Qed.

End TryBody.

(** ** One iteration *)

Section Iteration.

Variable w : World.

Lemma iteration_spec st :
  match iteration w st with
  | inr st' =>
      (frontier st = [] /\ st' = st)
      \/ (exists rest u, frontier st = rest ++ [u]
            /\ MAX_PAGES_TO_VISIT < loaded_count st + 1
            /\ st' = log EvLogWarning
                       (set_loaded_count (loaded_count st + 1) st))
  | inl st' =>
      exists rest u, frontier st = rest ++ [u]
        /\ loaded_count st + 1 <= MAX_PAGES_TO_VISIT
        /\ (((u ∈ visited_links st) /\ st' = popped rest u st)
            \/ ((u ∉ visited_links st) /\ exists st1,
                  extends (entered rest u st) st1
                    (filter (fun v => v ∉ {[u]} ∪ visited_links st)
                            (links_of w u))
                    (attempt_docs u (attempt_of w u))
                    (attempt_events u (attempt_of w u))
                    (attempt_ok (attempt_of w u))
                  /\ st' = settle u (attempt_result (attempt_of w u)) st1))
  end.
Proof.
  unfold iteration.
  destruct (list_pop (frontier st)) as [[rest u]|] eqn:Hpop.
  2:{ left. split; [apply list_pop_None, Hpop | reflexivity]. }
  apply list_pop_Some in Hpop.
  cbn [loaded_count set_loaded_count].
  destruct (Z.ltb_spec MAX_PAGES_TO_VISIT (loaded_count st + 1)) as [Hlt|Hle].
  { right. exists rest, u. auto. }
  fold (popped rest u st).
  change (visited_links (popped rest u st)) with (visited_links st).
  destruct (decide (u ∈ visited_links st)) as [Hin|Hin].
  { exists rest, u. auto. }
  fold (entered rest u st).
  destruct (try_body_spec w u (entered rest u st)) as (st1 & Hrun & Hext).
  rewrite Hrun.
  assert (Hsettle : forall r : result unit,
            match r with
            | Ok _ => inl (flush_if_full st1)
            | Raise e =>
                inl (log (EvLogError (error_message u e))
                       (set_last_error (Some (error_message u e)) st1))
            end = (inl (settle u r st1) : state + state)).
  { intros [[]|e]; reflexivity. }
  rewrite Hsettle.
  exists rest, u. split; [exact Hpop|]. split; [exact Hle|].
  right. split; [exact Hin|]. exists st1. split; [exact Hext | reflexivity].
Qed.

Lemma iteration_inl st st' : iteration w st = inl st' -> step w st st'.
Proof.
  intros H. pose proof (iteration_spec st) as S. rewrite H in S.
  destruct S as (rest & u & Hf & Hle & [[Hin ->] | [Hin (st1 & Hext & ->)]]).
  - eapply step_skip; eauto.
  - eapply step_attempt; eauto.
Qed.

Lemma iteration_inr st st' : iteration w st = inr st' -> leave st st'.
Proof.
  intros H. pose proof (iteration_spec st) as S. rewrite H in S.
  destruct S as [[Hf ->] | (rest & u & Hf & Hlt & ->)].
  - apply leave_empty; auto.
  - apply leave_budget; auto. rewrite Hf. intros E.
    apply (f_equal length) in E. rewrite length_app in E. simpl in E. lia.
Qed.

Lemma step_loaded_count st st' :
  step w st st' ->
  loaded_count st' = loaded_count st + 1
  /\ loaded_count st + 1 <= MAX_PAGES_TO_VISIT.
Proof.
  intros [rest u Hf Hle Hin -> | rest u st1 Hf Hle Hin Hext ->].
  - split; [reflexivity | exact Hle].
  - split; [|exact Hle].
    transitivity (loaded_count st1).
    + unfold settle. destruct (attempt_result _) as [[]|e]; [|reflexivity].
      unfold flush_if_full. destruct (_ <=? _); reflexivity.
    + apply (ext_loaded_count _ _ _ _ _ _ Hext).
Qed.

End Iteration.

(** ** The loop terminates within the budget *)

Section Loop.

Variable w : World.

Lemma while_loop_budget n : forall st,
  (Z.to_nat (MAX_PAGES_TO_VISIT - loaded_count st) < n)%nat ->
  exists st', while_loop w n st = Some st'.
Proof.
  induction n as [|n IH]; intros st Hn; [lia|]. simpl.
  destruct (iteration w st) as [st1|st1] eqn:Hit; [|eauto].
  apply iteration_inl, (step_loaded_count w) in Hit. destruct Hit as [Hlc Hle].
  apply IH. rewrite Hlc. lia.
Qed.

Lemma while_loop_mono n : forall st st' m,
  while_loop w n st = Some st' -> (n <= m)%nat -> while_loop w m st = Some st'.
Proof.
  induction n as [|n IH]; intros st st' m H Hm; [discriminate|].
  destruct m as [|m]; [lia|]. simpl in *.
  destruct (iteration w st); [|exact H]. apply IH; [exact H | lia].
Qed.

Lemma while_loop_exec n : forall st st',
  while_loop w n st = Some st' -> loop_exec w st st'.
Proof.
  induction n as [|n IH]; intros st st' H; [discriminate|]. simpl in H.
  destruct (iteration w st) as [st1|st1] eqn:Hit.
  - eapply exec_step; eauto.
  - inversion H; subst. apply exec_leave, Hit.
Qed.

Lemma run_loop_fuel st : while_loop w (budget_fuel st) st = Some (run_loop w st).
Proof.
  unfold run_loop.
  destruct (while_loop_budget (budget_fuel st) st) as [st' H].
  - unfold budget_fuel. lia.
  - rewrite H. reflexivity.
Qed.

Lemma run_loop_exec st : loop_exec w st (run_loop w st).
Proof. eapply while_loop_exec, run_loop_fuel. Qed.

(** The loop equation of [while]: leave, or do one iteration and loop. *)
Lemma run_loop_unfold st :
  run_loop w st = match iteration w st with
                  | inr st' => st'
                  | inl st1 => run_loop w st1
                  end.
Proof.
  pose proof (run_loop_fuel st) as H. unfold budget_fuel in H. simpl in H.
  destruct (iteration w st) as [st1|st'] eqn:Hit.
  - pose proof (run_loop_fuel st1) as H1.
    apply iteration_inl, (step_loaded_count w) in Hit. destruct Hit as [Hlc Hle].
    eapply while_loop_mono in H1.
    + rewrite H1 in H. congruence.
    + unfold budget_fuel. rewrite Hlc. lia.
  - congruence.
Qed.

(** An invariant of the iterations holds when the loop is left. *)
Lemma loop_exec_invariant (P : state -> Prop) :
  (forall st st', P st -> step w st st' -> P st') ->
  (forall st st', P st -> leave st st' -> P st') ->
  forall st st', loop_exec w st st' -> P st -> P st'.
Proof.
  intros Hstep Hleave st st' H. induction H as [st st' Hit | st st1 st' Hit _ IH].
  - intros HP. eapply Hleave; [exact HP | apply (iteration_inr w), Hit].
  - intros HP. apply IH. eapply Hstep; [exact HP | apply iteration_inl, Hit].
Qed.

Lemma run_loop_invariant (P : state -> Prop) :
  (forall st st', P st -> step w st st' -> P st') ->
  (forall st st', P st -> leave st st' -> P st') ->
  forall st, P st -> P (run_loop w st).
Proof.
  intros Hstep Hleave st. apply (loop_exec_invariant P Hstep Hleave).
  apply run_loop_exec.
Qed.

End Loop.

(** ** Observations through the end of an iteration *)

Lemma omap_snoc_None {A B : Type} (f : A -> option B) (l : list A) (x : A) :
  f x = None -> omap f (l ++ [x]) = omap f l.
Proof. intros H. rewrite omap_app. simpl. rewrite H. apply app_nil_r. Qed.

Lemma omap_snoc_Some {A B : Type} (f : A -> option B) (l : list A) (x : A) y :
  f x = Some y -> omap f (l ++ [x]) = omap f l ++ [y].
Proof. intros H. rewrite omap_app. simpl. rewrite H. reflexivity. Qed.

Lemma settle_fields u r st :
  self (settle u r st) = self st
  /\ to_visit (settle u r st) = to_visit st
  /\ heap (settle u r st) = heap st
  /\ visited_links (settle u r st) = visited_links st
  /\ loaded_count (settle u r st) = loaded_count st
  /\ at_least_one_doc (settle u r st) = at_least_one_doc st.
Proof.
  unfold settle, flush_if_full. destruct r as [[]|e]; [|repeat split].
  destruct (_ <=? _); repeat split.
Qed.

Lemma settle_produced u r st : produced (settle u r st) = produced st.
Proof.
  unfold settle, flush_if_full, produced, yields. destruct r as [[]|e].
  - destruct (_ <=? _); [|reflexivity]. simpl.
    rewrite (omap_snoc_Some _ _ _ (doc_batch st)) by reflexivity.
    rewrite concat_app. simpl. rewrite !app_nil_r. reflexivity.
  - simpl. rewrite omap_snoc_None by reflexivity. reflexivity.
Qed.

Lemma settle_observed {B : Type} (f : event -> option B) u r st :
  (forall b, f (EvYield b) = None) -> (forall m, f (EvLogError m) = None) ->
  omap f (trace (settle u r st)) = omap f (trace st).
Proof.
  intros Hy He. unfold settle, flush_if_full. destruct r as [[]|e].
  - destruct (_ <=? _); [|reflexivity]. simpl. apply omap_snoc_None, Hy.
  - simpl. apply omap_snoc_None, He.
Qed.

Lemma settle_last_error u r st :
  last_error (settle u r st)
  = match r with
    | Raise e => Some (error_message u e)
    | Ok _ => last_error st
    end.
Proof.
  unfold settle, flush_if_full. destruct r as [[]|e]; [|reflexivity].
  destruct (_ <=? _); reflexivity.
Qed.

Lemma attempt_events_yields u a : yields (attempt_events u a) = [].
Proof. destruct a as [| | ? ? [] ?|]; reflexivity. Qed.

Lemma attempt_events_pops u a : pops (attempt_events u a) = [].
Proof. destruct a as [| | ? ? [] ?|]; reflexivity. Qed.

Lemma attempt_events_starts u a : starts (attempt_events u a) = [].
Proof. destruct a as [| | ? ? [] ?|]; reflexivity. Qed.

Section StepView.

Variable w : World.

Lemma step_view st st' :
  step w st st' ->
  exists rest u,
    ((u ∈ visited_links st)
     /\ stepped st st' rest u [] [] [] false
     /\ last_error st' = last_error st
     /\ errors (trace st') = errors (trace st))
    \/ ((u ∉ visited_links st)
        /\ stepped st st' rest u (links_of w u)
             (attempt_docs u (attempt_of w u))
             (attempt_events u (attempt_of w u))
             (attempt_ok (attempt_of w u))
        /\ last_error st'
           = match attempt_result (attempt_of w u) with
             | Raise e => Some (error_message u e)
             | Ok _ => last_error st
             end
        /\ errors (trace st')
           = errors (trace st)
             ++ match attempt_result (attempt_of w u) with
                | Raise e => [error_message u e]
                | Ok _ => []
                end).
Proof.
  intros [rest u Hf Hle Hin -> | rest u st1 Hf Hle Hin Hext ->];
    exists rest, u; [left | right]; (split; [exact Hin|]).
  - split; [|split; [reflexivity|]].
    2:{ unfold errors, popped. simpl. apply omap_snoc_None. reflexivity. }
    split; try reflexivity; try assumption.
    + intros l Hl. simpl. rewrite lookup_insert_ne by done. reflexivity.
    + simpl. set_solver.
    + rewrite app_nil_r. unfold popped. apply frontier_set_frontier.
    + unfold produced, popped, yields. simpl.
      rewrite omap_snoc_None by reflexivity. rewrite app_nil_r. reflexivity.
    + symmetry. apply orb_false_r.
    + unfold pops, popped. simpl. apply omap_snoc_Some. reflexivity.
    + unfold gotos, popped. simpl. rewrite app_nil_r.
      apply omap_snoc_None. reflexivity.
    + unfold opened, popped. simpl. rewrite app_nil_r.
      apply omap_snoc_None. reflexivity.
    + unfold closed, popped. simpl. rewrite app_nil_r.
      apply omap_snoc_None. reflexivity.
    + unfold starts, popped. simpl. apply omap_snoc_None. reflexivity.
  - destruct (settle_fields u (attempt_result (attempt_of w u)) st1)
      as (Es & Et & Eh & Ev & El & Ea).
    destruct Hext as [Xs Xt Xv Xl Xe Xh Xf Xd Xa Xtr].
    assert (Htr : forall {B : Type} (f : event -> option B),
              (forall b, f (EvYield b) = None) ->
              (forall m, f (EvLogError m) = None) ->
              omap f (trace (settle u (attempt_result (attempt_of w u)) st1))
              = omap f (trace st) ++ omap f [EvPop u]
                ++ omap f (attempt_events u (attempt_of w u))).
    { intros B f Hy He. rewrite settle_observed by assumption.
      rewrite Xtr. unfold entered, popped. simpl.
      rewrite !omap_app. rewrite <- app_assoc. reflexivity. }
    split.
    + split; try assumption.
      * rewrite Es, Xs. reflexivity.
      * rewrite Et, Xt. reflexivity.
      * intros l Hl. rewrite Eh, Xh by exact Hl. simpl.
        rewrite lookup_insert_ne by done. reflexivity.
      * rewrite El, Xl. reflexivity.
      * rewrite Ev, Xv. reflexivity.
      * unfold frontier at 1. rewrite Eh, Et. fold (frontier st1).
        rewrite Xf, Ev, Xv. f_equal.
        unfold entered, popped. apply frontier_set_frontier.
      * rewrite settle_produced. unfold produced.
        rewrite Xd, Xtr. unfold entered, popped, yields. simpl.
        rewrite !omap_app. fold (yields (attempt_events u (attempt_of w u))).
        rewrite attempt_events_yields. simpl. rewrite !app_nil_r.
        apply app_assoc.
      * rewrite Ea, Xa. reflexivity.
      * unfold pops. rewrite Htr by reflexivity.
        fold (pops (attempt_events u (attempt_of w u))).
        rewrite attempt_events_pops. reflexivity.
      * unfold gotos. rewrite Htr by reflexivity. reflexivity.
      * unfold opened. rewrite Htr by reflexivity. reflexivity.
      * unfold closed. rewrite Htr by reflexivity. reflexivity.
      * unfold starts. rewrite Htr by reflexivity.
        fold (starts (attempt_events u (attempt_of w u))).
        rewrite attempt_events_starts. simpl. apply app_nil_r.
    + split.
      * rewrite settle_last_error.
        destruct (attempt_result (attempt_of w u)); [exact Xe | reflexivity].
      * assert (He : errors (trace st1) = errors (trace st)).
        { unfold errors. rewrite Xtr. unfold entered, popped. simpl.
          rewrite !omap_app. simpl.
          destruct (attempt_of w u) as [| | ? ? [] ?|]; simpl;
            rewrite ?app_nil_r; reflexivity. }
        rewrite <- He. unfold settle, flush_if_full, errors.
        destruct (attempt_result (attempt_of w u)) as [[]|e].
        -- destruct (_ <=? _); simpl; rewrite ?app_nil_r; [|reflexivity].
           apply omap_snoc_None. reflexivity.
        -- simpl. apply omap_snoc_Some. reflexivity.
Qed.

End StepView.

Lemma leave_view st st' :
  leave st st' ->
  self st' = self st /\ to_visit st' = to_visit st /\ heap st' = heap st
  /\ visited_links st' = visited_links st /\ doc_batch st' = doc_batch st
  /\ at_least_one_doc st' = at_least_one_doc st
  /\ last_error st' = last_error st
  /\ loaded_count st <= loaded_count st'
  /\ (forall {B : Type} (f : event -> option B), f EvLogWarning = None ->
        omap f (trace st') = omap f (trace st)).
Proof.
  intros [Hf -> | Hf Hlt ->].
  - repeat split; reflexivity.
  - repeat split; try reflexivity.
    + simpl. lia.
    + intros B f Hw. simpl. apply omap_snoc_None, Hw.
Qed.

Lemma leave_frontier st st' : leave st st' -> frontier st' = frontier st.
Proof.
  intros H. apply leave_view in H. destruct H as (_ & Ht & Hh & _).
  unfold frontier. rewrite Ht, Hh. reflexivity.
Qed.

Lemma leave_produced st st' : leave st st' -> produced st' = produced st.
Proof.
  intros H. apply leave_view in H.
  destruct H as (_ & _ & _ & _ & Hd & _ & _ & _ & Htr).
  unfold produced, yields. rewrite Hd, Htr by reflexivity. reflexivity.
Qed.

(** ** The loop invariants *)

Section Invariants.

Variable w : World.

Lemma attempted_step st st' vs :
  attempted w st vs -> step w st st' -> exists vs', attempted w st' vs'.
Proof.
  intros [Hnd Hv Hg Ho Hc Hp Hok Hs] Hstep.
  apply (step_view w) in Hstep.
  destruct Hstep as (rest & u & [(Hin & V & _) | (Hin & V & _)]);
    destruct V as [_ _ _ _ _ _ Vv _ Vp Va _ Vg Vo Vc Vs].
  - exists vs. split; try assumption; try congruence.
    + rewrite Vv, Hv. rewrite Hv in Hin. set_solver.
    + rewrite Vg, Hg. apply app_nil_r.
    + rewrite Vo, Ho. apply app_nil_r.
    + rewrite Vc, Hc. apply app_nil_r.
    + rewrite Vp, Hp. apply app_nil_r.
    + rewrite Va, Hok. apply orb_false_r.
  - exists (vs ++ [u]). split.
    + apply NoDup_app. split; [exact Hnd|]. split; [|apply NoDup_singleton].
      intros x Hx Hxu. apply list_elem_of_singleton in Hxu. subst x.
      apply Hin. rewrite Hv. apply elem_of_list_to_set, Hx.
    + rewrite Vv, Hv, list_to_set_app_L. simpl. set_solver.
    + rewrite Vg, Hg, flat_map_app. simpl. rewrite app_nil_r. reflexivity.
    + rewrite Vo, Ho, flat_map_app. simpl. rewrite app_nil_r. reflexivity.
    + rewrite Vc, Hc, flat_map_app. simpl. rewrite app_nil_r. reflexivity.
    + rewrite Vp, Hp, flat_map_app. simpl. rewrite app_nil_r. reflexivity.
    + rewrite Va, Hok, existsb_app. simpl. rewrite orb_false_r. reflexivity.
    + congruence.
Qed.

Lemma attempted_leave st st' vs :
  attempted w st vs -> leave st st' -> attempted w st' vs.
Proof.
  intros [Hnd Hv Hg Ho Hc Hp Hok Hs] Hl.
  pose proof (leave_produced _ _ Hl) as Ep.
  apply leave_view in Hl.
  destruct Hl as (_ & _ & _ & Ev & _ & Ea & _ & _ & Etr).
  split; try congruence.
  - unfold gotos. rewrite Etr by reflexivity. exact Hg.
  - unfold opened. rewrite Etr by reflexivity. exact Ho.
  - unfold closed. rewrite Etr by reflexivity. exact Hc.
  - unfold starts. rewrite Etr by reflexivity. exact Hs.
Qed.

Lemma attempted_entry c h : attempted w (loop_entry c h) [].
Proof. split; try reflexivity. apply NoDup_nil_2. Qed.

Lemma attempted_run_loop c h :
  exists vs, attempted w (run_loop w (loop_entry c h)) vs.
Proof.
  apply (run_loop_invariant w (fun st => exists vs, attempted w st vs)).
  - intros st st' [vs H] Hs. eapply attempted_step; eauto.
  - intros st st' [vs H] Hl. exists vs. eapply attempted_leave; eauto.
  - exists []. apply attempted_entry.
Qed.

End Invariants.

(** ** Before and after the loop *)

Lemma frontier_initial_state c h :
  frontier (initial_state c h) = deref h (self_to_visit_list c).
Proof. unfold initial_state, list_copy, frontier. simpl. apply deref_insert_eq. Qed.

Lemma finish_fields st :
  self (fst (finish st)) = self st
  /\ to_visit (fst (finish st)) = to_visit st
  /\ heap (fst (finish st)) = heap st
  /\ visited_links (fst (finish st)) = visited_links st
  /\ loaded_count (fst (finish st)) = loaded_count st
  /\ at_least_one_doc (fst (finish st)) = at_least_one_doc st
  /\ last_error (fst (finish st)) = last_error st.
Proof.
  unfold finish.
  destruct (doc_batch st), (at_least_one_doc st) eqn:Ea,
    (opt_truthy (last_error st)) eqn:Ee;
    simpl; rewrite ?Ea, ?Ee; simpl; repeat split; assumption.
Qed.

Lemma finish_observed {B : Type} (f : event -> option B) st :
  (forall b, f (EvYield b) = None) -> f EvStopPlaywright = None ->
  omap f (trace (fst (finish st))) = omap f (trace st).
Proof.
  intros Hy Hs. unfold finish.
  destruct (doc_batch st), (at_least_one_doc st) eqn:Ea,
    (opt_truthy (last_error st)) eqn:Ee;
    simpl; rewrite ?Ea, ?Ee; simpl;
    rewrite ?omap_app; simpl; rewrite ?Hy, ?Hs, ?app_nil_r; reflexivity.
Qed.

Lemma finish_yields st :
  yields (trace (fst (finish st)))
  = yields (trace st) ++ match doc_batch st with [] => [] | _ => [doc_batch st] end.
Proof.
  unfold finish, yields.
  destruct (doc_batch st), (at_least_one_doc st) eqn:Ea,
    (opt_truthy (last_error st)) eqn:Ee;
    simpl; rewrite ?Ea, ?Ee; simpl;
    rewrite ?omap_app; simpl; rewrite ?app_nil_r; reflexivity.
Qed.

Lemma finish_produced st : concat (yields (trace (fst (finish st)))) = produced st.
Proof.
  rewrite finish_yields, concat_app. unfold produced.
  destruct (doc_batch st); simpl; rewrite ?app_nil_r; reflexivity.
Qed.

Lemma finish_outcome st :
  snd (finish st)
  = if at_least_one_doc st then Returned
    else if opt_truthy (last_error st)
         then Raised (RuntimeError (default "" (last_error st)))
         else Raised (RuntimeError "No valid pages found.").
Proof.
  unfold finish.
  destruct (doc_batch st), (at_least_one_doc st) eqn:Ea,
    (opt_truthy (last_error st)) eqn:Ee;
    simpl; rewrite ?Ea, ?Ee; reflexivity.
Qed.

(** A run with URLs to visit is the loop followed by lines 121 to 129. *)
Lemma load_from_state_nonempty w c h :
  deref h (self_to_visit_list c) ≠ [] ->
  load_from_state w c h = finish (run_loop w (loop_entry c h)).
Proof.
  intros H. unfold load_from_state. rewrite frontier_initial_state.
  destruct (deref h (self_to_visit_list c)); [contradiction | reflexivity].
Qed.

Lemma load_from_state_empty w c h :
  deref h (self_to_visit_list c) = [] ->
  load_from_state w c h
  = (initial_state c h, Raised (ValueError "No URLs to visit")).
Proof.
  intros H. unfold load_from_state. rewrite frontier_initial_state, H.
  reflexivity.
Qed.

(** ** C7: an empty list of URLs *)

(** C7. When [self.to_visit_list] is empty, [load_from_state] raises
    [ValueError("No URLs to visit")] and its trace is empty: the browser
    session was never started and no page was opened. *)
Theorem empty_seed_fails_fast w c h :
  deref h (self_to_visit_list c) = [] ->
  snd (load_from_state w c h) = Raised (ValueError "No URLs to visit")
  /\ trace (fst (load_from_state w c h)) = []
  /\ starts (trace (fst (load_from_state w c h))) = [].
Proof.
  intros H. rewrite (load_from_state_empty w c h H). simpl.
  repeat split.
Qed.

Lemma empty_seed_fails_fast_witness :
  deref (store1 []) (self_to_visit_list (connector1 10)) = []
  /\ snd (load_from_state quiet_world (connector1 10) (store1 []))
     = Raised (ValueError "No URLs to visit").
Proof.
  split; [reflexivity|].
  apply (empty_seed_fails_fast quiet_world (connector1 10) (store1 [])).
  reflexivity.
Defined.

(** ** C9: the frontier is a stack *)

Lemma iteration_continues w st rest u :
  frontier st = list_append rest u ->
  loaded_count st + 1 <= MAX_PAGES_TO_VISIT ->
  exists st', iteration w st = inl st'.
Proof.
  intros Hf Hle. destruct (iteration w st) as [st'|st'] eqn:Hit; [eauto|].
  apply iteration_inr in Hit. destruct Hit as [He _ | _ Hlt _].
  - rewrite Hf in He. unfold list_append in He.
    apply (f_equal length) in He. rewrite length_app in He. simpl in He. lia.
  - lia.
Qed.



(** ** C2: the page budget *)

Section Budget.

Variable w : World.
Variable c : GeorisquesConnector.

Lemma within_budget_step st st' :
  within_budget c st -> step w st st' -> within_budget c st'.
Proof.
  intros [H1 H2] Hstep. apply (step_view w) in Hstep.
  destruct Hstep as (rest & u & [(_ & V & _) | (_ & V & _)]);
    destruct V as [_ Vb _ _ _ Vl _ _ _ _ Vp _ _ _ _];
    unfold within_budget; rewrite Vp, Vl, length_app; simpl;
    (split; [lia | right; lia]).
Qed.

Lemma within_budget_leave st st' :
  within_budget c st -> leave st st' -> within_budget c st'.
Proof.
  intros [H1 H2] Hl. apply leave_view in Hl.
  destruct Hl as (_ & _ & _ & _ & _ & _ & _ & Hlc & Htr).
  unfold within_budget, pops in *. rewrite (Htr _ is_pop eq_refl).
  split; [lia | exact H2].
Qed.

Lemma within_budget_entry h : within_budget c (loop_entry c h).
Proof. unfold within_budget. simpl. split; [lia | left; reflexivity]. Qed.

Lemma within_budget_run_loop h : within_budget c (run_loop w (loop_entry c h)).
Proof.
  apply (run_loop_invariant w (within_budget c)).
  - apply within_budget_step.
  - apply within_budget_leave.
  - apply within_budget_entry.
Qed.

End Budget.

(** C2. For a connector whose [loaded_count] is not negative (it is 0 after
    [__init__], and no code assigns it again), whatever the pages contain and
    whatever the frontier becomes, a run pops at most 1000 URLs; and the loop
    terminates: at most 1001 evaluations of its guard give the state in
    which the run ends, and more fuel gives the same state. *)
Theorem page_budget_enforced w c h :
  0 <= self_loaded_count c ->
  (length (pops (trace (fst (load_from_state w c h)))) <= 1000)%nat
  /\ exists n st',
       (n <= 1001)%nat
       /\ while_loop w n (loop_entry c h) = Some st'
       /\ (forall m, (n <= m)%nat -> while_loop w m (loop_entry c h) = Some st')
       /\ (deref h (self_to_visit_list c) ≠ [] ->
           load_from_state w c h = finish st').
Proof.
  intros Hc. split.
  - destruct (deref h (self_to_visit_list c)) as [|x l] eqn:Hd.
    + rewrite (load_from_state_empty w c h Hd). simpl. lia.
    + rewrite load_from_state_nonempty by (rewrite Hd; discriminate).
      unfold pops. rewrite finish_observed by reflexivity.
      destruct (within_budget_run_loop w c h) as [H1 [H2|H2]].
      * fold (pops (trace (run_loop w (loop_entry c h)))). rewrite H2.
        simpl. lia.
      * fold (pops (trace (run_loop w (loop_entry c h)))).
        unfold MAX_PAGES_TO_VISIT in H2. lia.
  - exists (budget_fuel (loop_entry c h)), (run_loop w (loop_entry c h)).
    split; [|split; [|split]].
    + unfold budget_fuel, MAX_PAGES_TO_VISIT. simpl. lia.
    + apply run_loop_fuel.
    + intros m Hm. eapply while_loop_mono; [apply run_loop_fuel | exact Hm].
    + apply load_from_state_nonempty.
Qed.

Lemma page_budget_enforced_witness :
  0 <= self_loaded_count (connector1 10)
  /\ (length (pops (trace (fst (load_from_state quiet_world (connector1 10)
                                  (store1 ["a"; "b"]))))) <= 1000)%nat.
Proof.
  split; [vm_compute; discriminate|].
  apply (page_budget_enforced quiet_world (connector1 10) (store1 ["a"; "b"])).
  vm_compute. discriminate.
Defined.

(** ** C10: the connector after a run *)

Section Frame.

Variable w : World.
Variable c : GeorisquesConnector.
Variable h : gmap loc (list string).

Lemma framed_step st st' : framed c h st -> step w st st' -> framed c h st'.
Proof.
  intros (Hs & Ht & Hh) Hstep. apply (step_view w) in Hstep.
  destruct Hstep as (rest & u & [(_ & V & _) | (_ & V & _)]);
    destruct V as [_ _ Vs Vt Vh _ _ _ _ _ _ _ _ _ _];
    (split; [congruence | split; [congruence|]]);
    intros l Hl; rewrite Vh by congruence; apply Hh, Hl.
Qed.

Lemma framed_leave st st' : framed c h st -> leave st st' -> framed c h st'.
Proof.
  intros (Hs & Ht & Hh) Hl. apply leave_view in Hl.
  destruct Hl as (Es & Et & Eh & _).
  split; [congruence | split; [congruence|]].
  intros l Hl. rewrite Eh. apply Hh, Hl.
Qed.

Lemma framed_initial_state : framed c h (initial_state c h).
Proof.
  split; [reflexivity | split; [reflexivity|]].
  intros l Hl. unfold initial_state, list_copy in *. simpl in *.
  rewrite lookup_insert_ne by done. reflexivity.
Qed.

Lemma framed_load_from_state : framed c h (fst (load_from_state w c h)).
Proof.
  destruct (deref h (self_to_visit_list c)) as [|x l] eqn:Hd.
  - rewrite (load_from_state_empty w c h Hd). apply framed_initial_state.
  - rewrite load_from_state_nonempty by (rewrite Hd; discriminate).
    destruct (finish_fields (run_loop w (loop_entry c h)))
      as (Es & Et & Eh & _).
    unfold framed. rewrite Es, Et, Eh.
    apply (run_loop_invariant w (framed c h)).
    + apply framed_step.
    + apply framed_leave.
    + apply framed_initial_state.
Qed.

End Frame.

(** C10. A run writes to no list object that existed before it and to no
    attribute of the connector: after the run, successful or not, the
    connector has the same [base_url], [batch_size], [loaded_count] and
    [to_visit_list], that list has the same elements, and a second run starts
    from the same frontier, the same [loaded_count], and empty
    [visited_links] and [doc_batch]. *)
Theorem run_leaves_connector_unchanged w c h :
  let st := fst (load_from_state w c h) in
  self st = c
  /\ (forall l, l ∈ dom h -> heap st !! l = h !! l)
  /\ deref (heap st) (self_to_visit_list c) = deref h (self_to_visit_list c)
  /\ frontier (initial_state (self st) (heap st)) = frontier (initial_state c h)
  /\ loaded_count (initial_state (self st) (heap st))
     = loaded_count (initial_state c h)
  /\ visited_links (initial_state (self st) (heap st)) = ∅
  /\ doc_batch (initial_state (self st) (heap st)) = [].
Proof.
  intros st. destruct (framed_load_from_state w c h) as (Hs & Ht & Hh).
  fold st in Hs, Ht, Hh.
  assert (Hdom : forall l, l ∈ dom h -> heap st !! l = h !! l).
  { intros l Hl. apply Hh. intros ->.
    exact (list_copy_fresh h (self_to_visit_list c) Hl). }
  assert (Hd : deref (heap st) (self_to_visit_list c)
               = deref h (self_to_visit_list c)).
  { destruct (decide (self_to_visit_list c ∈ dom h)) as [Hin|Hout].
    - unfold deref. rewrite Hdom by exact Hin. reflexivity.
    - assert (He : deref h (self_to_visit_list c) = []).
      { unfold deref. apply not_elem_of_dom in Hout. rewrite Hout. reflexivity. }
      subst st. rewrite (load_from_state_empty w c h He). simpl.
      rewrite He. unfold deref.
      destruct (decide (fresh (dom h) = self_to_visit_list c)) as [E|E].
      + rewrite E, lookup_insert_eq. reflexivity.
      + rewrite lookup_insert_ne by exact E.
        apply not_elem_of_dom in Hout. rewrite Hout. reflexivity. }
  split; [exact Hs|]. split; [exact Hdom|]. split; [exact Hd|].
  rewrite !frontier_initial_state, Hs.
  split; [exact Hd|]. repeat split.
Qed.

(** ** C6: how a run ends *)

Lemma error_message_truthy u e : str_truthy (error_message u e) = true.
Proof. reflexivity. Qed.

Section LastError.

Variable w : World.

Lemma last_error_logged_step st st' :
  last_error_logged st -> step w st st' -> last_error_logged st'.
Proof.
  intros [H1 H2] Hstep. apply (step_view w) in Hstep.
  destruct Hstep as (rest & u & [(_ & _ & El & Ee) | (_ & _ & El & Ee)]);
    unfold last_error_logged; rewrite El, Ee.
  - split; assumption.
  - destruct (attempt_result (attempt_of w u)) as [[]|e].
    + rewrite app_nil_r. split; assumption.
    + rewrite last_snoc. split; [reflexivity|].
      apply Forall_app. split; [exact H2|].
      apply Forall_singleton. eauto.
Qed.

Lemma last_error_logged_leave st st' :
  last_error_logged st -> leave st st' -> last_error_logged st'.
Proof.
  intros [H1 H2] Hl. apply leave_view in Hl.
  destruct Hl as (_ & _ & _ & _ & _ & _ & El & _ & Htr).
  unfold last_error_logged, errors in *.
  rewrite El, (Htr _ is_error eq_refl). split; assumption.
Qed.

Lemma last_error_logged_run_loop c h :
  last_error_logged (run_loop w (loop_entry c h)).
Proof.
  apply (run_loop_invariant w last_error_logged).
  - apply last_error_logged_step.
  - apply last_error_logged_leave.
  - split; [reflexivity | apply Forall_nil_2].
Qed.

End LastError.

(** C6, amended. How every run ends.  A run whose list of URLs is empty
    raises [ValueError("No URLs to visit")] (it ends with [at_least_one_doc]
    false and no failure recorded, and never reaches lines 126 to 129).  A
    run that had URLs to visit ends according to [at_least_one_doc] and
    [last_error]: with [at_least_one_doc] true it returns; with it false it
    raises [RuntimeError] with the message of the failure recorded last when
    there is one, and with [No valid pages found.] when none was recorded.
    [last_error] is the failure logged last. *)
Theorem end_of_run_outcome w c h :
  let st := fst (load_from_state w c h) in
  snd (load_from_state w c h)
  = match deref h (self_to_visit_list c) with
    | [] => Raised (ValueError "No URLs to visit")
    | _ :: _ =>
        if at_least_one_doc st then Returned
        else match last_error st with
             | Some m => Raised (RuntimeError m)
             | None => Raised (RuntimeError "No valid pages found.")
             end
    end
  /\ last_error st = last (errors (trace st)).
Proof.
  intros st. subst st.
  destruct (deref h (self_to_visit_list c)) as [|x l] eqn:Hd0.
  { rewrite (load_from_state_empty w c h Hd0). split; reflexivity. }
  assert (Hd : deref h (self_to_visit_list c) ≠ [])
    by (rewrite Hd0; discriminate).
  rewrite (load_from_state_nonempty w c h Hd).
  destruct (finish_fields (run_loop w (loop_entry c h)))
    as (_ & _ & _ & _ & _ & Ea & El).
  destruct (last_error_logged_run_loop w c h) as [H1 H2].
  rewrite finish_outcome, Ea, El. clear Ea El. split.
  - destruct (at_least_one_doc (run_loop w (loop_entry c h))); [reflexivity|].
    destruct (last_error (run_loop w (loop_entry c h))) as [m|] eqn:Em;
      [|reflexivity].
    assert (Hin : m ∈ errors (trace (run_loop w (loop_entry c h)))).
    { symmetry in H1. apply last_Some in H1. destruct H1 as [l' ->].
      apply elem_of_app. right. apply list_elem_of_singleton. reflexivity. }
    rewrite Forall_forall in H2. destruct (H2 m Hin) as (u & e & ->).
    simpl. reflexivity.
  - unfold errors. rewrite finish_observed by reflexivity. exact H1.
Qed.

(** The three ways a run with URLs to visit ends: it returns; it raises with
    the failure recorded last; it raises with the generic message, when the
    budget is already spent on entry and no page is attempted. *)
Lemma end_of_run_outcome_witness :
  snd (load_from_state quiet_world (connector1 10) (store1 [seed_url]))
  = Returned
  /\ snd (load_from_state timeout_world (connector1 10) (store1 [seed_url]))
     = Raised (RuntimeError
                 (error_message seed_url "Timeout 30000ms exceeded."))
  /\ snd (load_from_state quiet_world spent_connector (store1 [seed_url]))
     = Raised (RuntimeError "No valid pages found.").
Proof.
  split; [|split].
  - rewrite (proj1 (end_of_run_outcome quiet_world (connector1 10)
                      (store1 [seed_url]))).
    reflexivity.
  - rewrite (proj1 (end_of_run_outcome timeout_world (connector1 10)
                      (store1 [seed_url]))).
    reflexivity.
  - rewrite (proj1 (end_of_run_outcome quiet_world spent_connector
                      (store1 [seed_url]))).
    reflexivity.
Defined.

(** C6 as stated fails on the empty list of URLs: the run ends with
    [at_least_one_doc] false and no failure recorded, and raises
    [ValueError], not [RuntimeError("No valid pages found.")]. *)
Lemma empty_seed_is_not_no_valid_pages :
  let r := load_from_state quiet_world (connector1 10) (store1 []) in
  at_least_one_doc (fst r) = false
  /\ last_error (fst r) = None
  /\ snd r = Raised (ValueError "No URLs to visit")
  /\ snd r ≠ Raised (RuntimeError "No valid pages found.").
Proof. vm_compute. repeat split. discriminate. Qed.

(** ** C1: no URL is fetched twice *)

Lemma gotos_attempt_events u a :
  gotos (attempt_events u a) = if attempt_opened a then [u] else [].
Proof. destruct a as [| | ? ? [] ?|]; reflexivity. Qed.

Lemma attempt_opened_new_page w u :
  attempt_opened (attempt_of w u) = true <-> new_page w u = Ok tt.
Proof.
  unfold attempt_of. destruct (new_page w u) as [[]|e]; simpl.
  - split; [reflexivity|]. intros _.
    destruct (goto w u); [|reflexivity].
    destruct (content w u); [|reflexivity].
    destruct (resolve w u _) as [? [?|]]; [reflexivity|].
    destruct (close w u); reflexivity.
  - split; discriminate.
Qed.

Lemma fetched_once (p : string -> bool) (vs : list string) :
  NoDup vs ->
  let fetched := flat_map (fun u => if p u then [u] else []) vs in
  NoDup fetched
  /\ (forall u, u ∈ fetched <-> u ∈ vs /\ p u = true)
  /\ (length fetched <= length vs)%nat
  /\ ((forall u, u ∈ vs -> p u = true) -> length fetched = length vs).
Proof.
  induction 1 as [|x vs Hx Hnd IH]; simpl.
  - split; [apply NoDup_nil_2|]. split; [|split; [lia | reflexivity]].
    intros u. split; [intros Hu | intros [Hu _]]; inversion Hu.
  - destruct IH as (I1 & I2 & I3 & I4).
    destruct (p x) eqn:Hp; simpl.
    + split; [|split; [|split]].
      * apply NoDup_cons. split; [|exact I1]. intros Hin. apply I2 in Hin.
        tauto.
      * intros u. rewrite !elem_of_cons, I2. split.
        -- intros [->|[? ?]]; auto.
        -- intros [[->|?] ?]; auto.
      * lia.
      * intros Hall. f_equal. apply I4. intros u Hu. apply Hall.
        apply elem_of_cons. auto.
    + split; [exact I1|]. split; [|split].
      * intros u. rewrite elem_of_cons, I2. split.
        -- intros [? ?]; auto.
        -- intros [[->|?] ?]; [congruence | auto].
      * lia.
      * intros Hall. specialize (Hall x). rewrite Hp in Hall.
        discriminate Hall. apply elem_of_cons. auto.
Qed.

Lemma iteration_skips w st rest u :
  frontier st = rest ++ [u] ->
  loaded_count st + 1 <= MAX_PAGES_TO_VISIT ->
  u ∈ visited_links st ->
  iteration w st = inl (popped rest u st).
Proof.
  intros Hf Hle Hin.
  destruct (iteration_continues w st rest u Hf Hle) as [st' Hit].
  pose proof (iteration_spec w st) as S. rewrite Hit in S.
  destruct S as (rest' & u' & Hf' & _ & [[_ ->] | [Hout _]]);
    rewrite Hf in Hf'; apply app_inj_tail in Hf'; destruct Hf' as [-> ->].
  - exact Hit.
  - contradiction.
Qed.

Lemma iteration_attempts w st rest u :
  frontier st = rest ++ [u] ->
  loaded_count st + 1 <= MAX_PAGES_TO_VISIT ->
  u ∉ visited_links st ->
  iteration w st
  = inl (settle u (snd (try_body w u (entered rest u st)))
                  (fst (try_body w u (entered rest u st)))).
Proof.
  intros Hf Hle Hout. unfold iteration.
  apply list_pop_Some in Hf. rewrite Hf.
  cbn [loaded_count set_loaded_count].
  destruct (Z.ltb_spec MAX_PAGES_TO_VISIT (loaded_count st + 1)); [lia|].
  fold (popped rest u st).
  change (visited_links (popped rest u st)) with (visited_links st).
  destruct (decide (u ∈ visited_links st)); [contradiction|].
  fold (entered rest u st).
  destruct (try_body w u (entered rest u st)) as [st1 [[]|e]]; reflexivity.
Qed.

Lemma iteration_visited_grows w st st' :
  iteration w st = inl st' -> visited_links st ⊆ visited_links st'.
Proof.
  intros Hit. apply iteration_inl, (step_view w) in Hit.
  destruct Hit as (rest & u & [(_ & V & _) | (_ & V & _)]);
    rewrite (sv_visited _ _ _ _ _ _ _ _ V); set_solver.
Qed.

Lemma iteration_visited_kept w st st' :
  iteration w st = inr st' -> visited_links st' = visited_links st.
Proof.
  intros Hit. apply iteration_inr, leave_view in Hit.
  destruct Hit as (_ & _ & _ & Hv & _). exact Hv.
Qed.

(** What the ordered list of attempted URLs says about the fetches. *)
Lemma attempted_fetches w st vs :
  attempted w st vs ->
  NoDup (gotos (trace st))
  /\ (forall u, u ∈ gotos (trace st)
                <-> u ∈ visited_links st /\ new_page w u = Ok tt)
  /\ (length (gotos (trace st)) <= size (visited_links st))%nat
  /\ ((forall u, u ∈ visited_links st -> new_page w u = Ok tt) ->
      length (gotos (trace st)) = size (visited_links st)).
Proof.
  intros [Hnd Hv Hg _ _ _ _ _].
  rewrite (flat_map_ext _ (fun u => if attempt_opened (attempt_of w u)
                                    then [u] else [])) in Hg
    by (intros u; apply gotos_attempt_events).
  destruct (fetched_once (fun u => attempt_opened (attempt_of w u)) vs Hnd)
    as (F1 & F2 & F3 & F4).
  simpl in F1, F2, F3, F4. rewrite <- Hg in F1, F2, F3, F4.
  assert (Hsize : size (visited_links st) = length vs).
  { rewrite Hv. apply size_list_to_set, Hnd. }
  assert (Hmem : forall u, u ∈ visited_links st <-> u ∈ vs).
  { intros u. rewrite Hv. apply elem_of_list_to_set. }
  split; [exact F1|]. split; [|split].
  - intros u. rewrite F2, Hmem, attempt_opened_new_page. reflexivity.
  - rewrite Hsize. exact F3.
  - intros Hall. rewrite Hsize. apply F4. intros u Hu.
    apply attempt_opened_new_page, Hall, Hmem, Hu.
Qed.

(** C1, amended. In every run no URL is passed to [page.goto] twice.  A
    popped URL that is already in [visited_links] is skipped without a fetch;
    a popped URL that is not is added to [visited_links] before the [try]
    body, the only place where [page.goto] is called, starts; an iteration
    never removes a URL from [visited_links].  At the end of the run the
    URLs fetched are the visited URLs whose page could be opened: their
    number is at most the size of [visited_links], and equal to it when
    [context.new_page()] raised for no visited URL. *)
Theorem no_duplicate_fetch w c h :
  let st := fst (load_from_state w c h) in
  NoDup (gotos (trace st))
  /\ (forall u, u ∈ gotos (trace st)
                <-> u ∈ visited_links st /\ new_page w u = Ok tt)
  /\ (length (gotos (trace st)) <= size (visited_links st))%nat
  /\ ((forall u, u ∈ visited_links st -> new_page w u = Ok tt) ->
      length (gotos (trace st)) = size (visited_links st))
  /\ (forall s rest u,
        frontier s = rest ++ [u] ->
        loaded_count s + 1 <= MAX_PAGES_TO_VISIT ->
        u ∈ visited_links s ->
        iteration w s = inl (popped rest u s)
        /\ gotos (trace (popped rest u s)) = gotos (trace s))
  /\ (forall s rest u,
        frontier s = rest ++ [u] ->
        loaded_count s + 1 <= MAX_PAGES_TO_VISIT ->
        u ∉ visited_links s ->
        iteration w s
        = inl (settle u (snd (try_body w u (entered rest u s)))
                        (fst (try_body w u (entered rest u s))))
        /\ u ∈ visited_links (entered rest u s))
  /\ (forall s s', iteration w s = inl s' ->
                   visited_links s ⊆ visited_links s')
  /\ (forall s s', iteration w s = inr s' ->
                   visited_links s' = visited_links s).
Proof.
  intros st.
  assert (Hrun : NoDup (gotos (trace st))
    /\ (forall u, u ∈ gotos (trace st)
                  <-> u ∈ visited_links st /\ new_page w u = Ok tt)
    /\ (length (gotos (trace st)) <= size (visited_links st))%nat
    /\ ((forall u, u ∈ visited_links st -> new_page w u = Ok tt) ->
        length (gotos (trace st)) = size (visited_links st))).
  { subst st. destruct (deref h (self_to_visit_list c)) as [|x l] eqn:Hd.
    - rewrite (load_from_state_empty w c h Hd). simpl.
      split; [apply NoDup_nil_2|]. split; [|split; [lia | reflexivity]].
      intros u. split; [intros Hu; inversion Hu | intros [Hu _]; set_solver].
    - destruct (attempted_run_loop w c h) as [vs Hvs].
      rewrite load_from_state_nonempty by (rewrite Hd; discriminate).
      destruct (finish_fields (run_loop w (loop_entry c h)))
        as (_ & _ & _ & Ev & _).
      unfold gotos. rewrite Ev, finish_observed by reflexivity.
      exact (attempted_fetches w _ vs Hvs). }
  destruct Hrun as (R1 & R2 & R3 & R4).
  split; [exact R1|]. split; [exact R2|]. split; [exact R3|].
  split; [exact R4|]. split; [|split; [|split]].
  - intros s rest u Hf Hle Hin. split.
    + apply iteration_skips; assumption.
    + unfold gotos, popped. simpl. apply omap_snoc_None. reflexivity.
  - intros s rest u Hf Hle Hout. split.
    + apply iteration_attempts; assumption.
    + simpl. set_solver.
  - apply iteration_visited_grows.
  - apply iteration_visited_kept.
Qed.

Lemma no_duplicate_fetch_witness :
  (forall u, u ∈ visited_links (fst (load_from_state quiet_world
               (connector1 10) (store1 ["a"]))) -> new_page quiet_world u = Ok tt)
  /\ length (gotos (trace (fst (load_from_state quiet_world (connector1 10)
                                  (store1 ["a"])))))
     = size (visited_links (fst (load_from_state quiet_world (connector1 10)
                                   (store1 ["a"])))).
Proof.
  assert (H : forall u,
             u ∈ visited_links (fst (load_from_state quiet_world
                                      (connector1 10) (store1 ["a"]))) ->
             new_page quiet_world u = Ok tt) by reflexivity.
  split; [exact H|].
  destruct (no_duplicate_fetch quiet_world (connector1 10) (store1 ["a"]))
    as (_ & _ & _ & Heq & _).
  exact (Heq H).
Defined.

(** C1 as stated fails: when [context.new_page()] raises, the URL is already
    in [visited_links] and [page.goto] is never called for it. *)
Lemma render_calls_fewer_than_visited :
  let st := fst (load_from_state no_page_world (connector1 10) (store1 ["a"])) in
  gotos (trace st) = [] /\ elements (visited_links st) = ["a"]
  /\ length (gotos (trace st)) ≠ size (visited_links st).
Proof. vm_compute. repeat split. discriminate. Qed.

(** ** C4: the page of an iteration *)

(** Whatever the state, an iteration whose [page.goto] raises leaves the
    loop body through the [except] clause: the page was opened and
    [page.close()] is not called. *)
Lemma goto_failure_skips_close w st rest u e :
  frontier st = rest ++ [u] ->
  loaded_count st + 1 <= MAX_PAGES_TO_VISIT ->
  u ∉ visited_links st ->
  new_page w u = Ok tt ->
  goto w u = Raise e ->
  exists st',
    iteration w st = inl st'
    /\ trace st'
       = trace st ++ [EvPop u; EvPageOpened u; EvGoto u;
                      EvLogError (error_message u e)].
Proof.
  intros Hf Hle Hout Hn Hg. eexists. split.
  - apply iteration_attempts; eassumption.
  - unfold try_body, bind, call, update. rewrite Hn, Hg. simpl.
    rewrite <- !app_assoc. reflexivity.
Qed.

(** C4, on a seed whose navigation times out: the page is opened and the run
    ends without [page.close()] having been called. *)
Theorem page_left_open_on_failure :
  let st := fst (load_from_state timeout_world (connector1 10)
                   (store1 [seed_url])) in
  trace st
  = [EvStartPlaywright; EvPop seed_url; EvPageOpened seed_url;
     EvGoto seed_url;
     EvLogError (error_message seed_url "Timeout 30000ms exceeded.");
     EvStopPlaywright]
  /\ opened (trace st) = [seed_url]
  /\ closed (trace st) = [].
Proof. vm_compute. repeat split. Qed.

(** ** C5: batches *)

(** C5, with [batch_size = 1] on a seed page that links to a PDF and then has
    an anchor on which [urljoin] raises: the document of the seed page is
    already in [doc_batch] when the [except] clause skips the size check, so
    the two documents of the run are yielded as one batch of two. *)
Theorem batch_larger_than_batch_size :
  let r := load_from_state bad_href_world (connector1 1) (store1 [seed_url]) in
  self_batch_size (self (fst r)) = 1
  /\ map (map doc_id) (yields (trace (fst r))) = [[seed_url; pdf_url1]]
  /\ map length (yields (trace (fst r))) = [2%nat]
  /\ snd r = Returned.
Proof. vm_compute. repeat split. Qed.

(** ** C8: link discovery *)

Lemma is_pdf_href_endswith href : is_pdf_href href = endswith href ".pdf".
Proof. unfold is_pdf_href. destruct href; reflexivity. Qed.

Lemma resolve_spec w u hrefs : forall links,
  resolve w u hrefs = (links, None) ->
  Forall2 (fun href pdf_url => urljoin w u href = Ok pdf_url)
          (filter (fun href => endswith href ".pdf" = true) hrefs) links.
Proof.
  induction hrefs as [|href hrefs IH]; intros links H; simpl in H.
  - inversion H. apply Forall2_nil_2.
  - rewrite filter_cons. fold (is_pdf_href href) in H.
    rewrite is_pdf_href_endswith in H.
    destruct (endswith href ".pdf") eqn:Hpdf.
    + destruct (decide (true = true)) as [_|Hne]; [|congruence].
      destruct (urljoin w u href) as [pdf_url|err] eqn:Hjoin; [|discriminate].
      destruct (resolve w u hrefs) as [l r]. inversion H; subst.
      apply Forall2_cons. split; [exact Hjoin | apply IH; reflexivity].
    + destruct (decide (false = true)) as [Heq|_]; [discriminate|]. apply IH, H.
Qed.

Lemma attempt_of_Success w u soup links :
  attempt_of w u = Success soup links ->
  content w u = Ok soup /\ resolve w u (a_hrefs soup) = (links, None).
Proof.
  unfold attempt_of. destruct (new_page w u); [|discriminate].
  destruct (goto w u); [|discriminate].
  destruct (content w u) as [soup'|]; [|discriminate].
  destruct (resolve w u (a_hrefs soup')) as [l [err|]] eqn:Hr; [discriminate|].
  destruct (close w u); [|discriminate].
  intros H. inversion H; subst. split; [reflexivity | exact Hr].
Qed.

(** C8, amended. In an iteration whose [try] body completes, the URLs pushed
    are, in document order, those of the anchors whose [href] string ends in
    [.pdf], each resolved with [urljoin] against the current URL, and a
    resolved URL is pushed if and only if it is not in [visited_links]
    (which contains the current URL). *)
Theorem pdf_links_pushed w st rest u soup links :
  frontier st = rest ++ [u] ->
  loaded_count st + 1 <= MAX_PAGES_TO_VISIT ->
  u ∉ visited_links st ->
  attempt_of w u = Success soup links ->
  exists st',
    iteration w st = inl st'
    /\ content w u = Ok soup
    /\ Forall2 (fun href pdf_url => urljoin w u href = Ok pdf_url)
               (filter (fun href => endswith href ".pdf" = true) (a_hrefs soup))
               links
    /\ visited_links st' = {[u]} ∪ visited_links st
    /\ frontier st' = rest ++ filter (fun v => v ∉ visited_links st') links.
Proof.
  intros Hf Hle Hout Ha.
  destruct (iteration_continues w st rest u Hf Hle) as [st' Hit].
  exists st'. split; [exact Hit|].
  destruct (attempt_of_Success w u soup links Ha) as [Hc Hr].
  split; [exact Hc|]. split; [apply resolve_spec, Hr|].
  apply iteration_inl, (step_view w) in Hit.
  destruct Hit as (rest' & u' & [(Hin & V & _) | (_ & V & _)]);
    pose proof (sv_frontier0 _ _ _ _ _ _ _ _ V) as Hf';
    rewrite Hf in Hf'; apply app_inj_tail in Hf'; destruct Hf' as [<- <-].
  - contradiction.
  - split; [apply (sv_visited _ _ _ _ _ _ _ _ V)|].
    rewrite (sv_frontier _ _ _ _ _ _ _ _ V). unfold links_of. rewrite Ha.
    reflexivity.
Qed.

(** On [visiting_state] in [linked_world]: of the four anchors of the
    seed page, [/plan.pdf] is resolved and pushed on top of what was below,
    the absolute PDF link is resolved and not pushed because it is visited,
    and the two others are not PDF links. *)
Lemma pdf_links_pushed_witness :
  exists st',
    iteration linked_world visiting_state = inl st'
    /\ frontier st' = [other_url; plan_url].
Proof.
  destruct (pdf_links_pushed linked_world visiting_state [other_url] seed_url
              {| title := Some "Accueil"; cleaned_text := "Georisques";
                 a_hrefs := ["/plan.pdf"; "mentions.html"; pdf_url1;
                             "carte.PDF"] |}
              [plan_url; pdf_url1])
    as (st' & Hit & _ & _ & Hv & Hf).
  - reflexivity.
  - vm_compute. discriminate.
  - vm_compute. set_solver.
  - reflexivity.
  - exists st'. split; [exact Hit|]. rewrite Hf, Hv. reflexivity.
Defined.

(** C8 as stated fails: the path of [rapport.pdf?v=1] ends in [.pdf], the
    iteration succeeds, and nothing is pushed, because the code tests the
    whole [href]. *)
Lemma pdf_link_with_query_not_pushed :
  let st := loop_entry (connector1 10) (store1 [seed_url]) in
  exists st',
    iteration query_world st = inl st'
    /\ attempt_ok (attempt_of query_world seed_url) = true
    /\ spec_is_pdf_target "rapport.pdf?v=1" = true
    /\ is_pdf_href "rapport.pdf?v=1" = false
    /\ spec_pdf_pushes query_world seed_url (visited_links st')
         ["rapport.pdf?v=1"]
       = ["https://www.georisques.gouv.fr/rapport.pdf?v=1"]
    /\ frontier st' = []
    /\ frontier st'
       ≠ [] ++ spec_pdf_pushes query_world seed_url (visited_links st')
                 ["rapport.pdf?v=1"].
Proof.
  eexists. split; [vm_compute; reflexivity|].
  vm_compute. repeat split. discriminate.
Qed.

(** ** C3: one failing page does not stop the run *)

Section Traversal.

Variable w : World.
Variable seeds : list string.

Lemma closed_under_links_step st st' :
  closed_under_links w seeds st -> step w st st' ->
  closed_under_links w seeds st'.
Proof.
  intros [Hs Hl Hr] Hstep. apply (step_view w) in Hstep.
  assert (Hu : exists rest u links,
             frontier st = rest ++ [u]
             /\ visited_links st' = {[u]} ∪ visited_links st
             /\ frontier st' = rest ++ filter (fun v => v ∉ visited_links st') links
             /\ (forall v, v ∈ links -> v ∈ links_of w u)
             /\ (forall v, v ∈ links_of w u ->
                           v ∈ visited_links st' \/ v ∈ frontier st')).
  { destruct Hstep as (rest & u & [(Hin & V & _) | (Hout & V & _)]);
      destruct V as [Vf0 _ _ _ _ _ Vv Vf _ _ _ _ _ _ _].
    - exists rest, u, []. repeat split; try assumption.
      + intros v Hv. inversion Hv.
      + intros v Hv. destruct (Hl u v Hin Hv) as [H|H].
        * left. rewrite Vv. set_solver.
        * rewrite Vf0 in H. apply elem_of_app in H. destruct H as [H|H].
          -- right. rewrite Vf. apply elem_of_app. auto.
          -- left. rewrite Vv. set_solver.
    - exists rest, u, (links_of w u). repeat split; try assumption.
      + auto.
      + intros v Hv. destruct (decide (v ∈ visited_links st')) as [H|H].
        * left. exact H.
        * right. rewrite Vf. apply elem_of_app. right.
          apply list_elem_of_filter. auto. }
  destruct Hu as (rest & u & links & Hf0 & Hv & Hf & Hsub & Hnew).
  assert (Hkeep : forall x, x ∈ visited_links st \/ x ∈ frontier st ->
                            x ∈ visited_links st' \/ x ∈ frontier st').
  { intros x [H|H].
    - left. rewrite Hv. set_solver.
    - rewrite Hf0 in H. apply elem_of_app in H. destruct H as [H|H].
      + right. rewrite Hf. apply elem_of_app. auto.
      + left. rewrite Hv. set_solver. }
  assert (Hur : reachable w seeds u).
  { apply Hr. right. rewrite Hf0. apply elem_of_app. right.
    apply list_elem_of_singleton. reflexivity. }
  split.
  - intros x Hx. apply Hkeep, Hs, Hx.
  - intros x v Hx Hxv. rewrite Hv in Hx. apply elem_of_union in Hx.
    destruct Hx as [Hx|Hx].
    + apply elem_of_singleton in Hx. subst x. apply Hnew, Hxv.
    + apply Hkeep. eapply Hl; eassumption.
  - intros x [Hx|Hx].
    + rewrite Hv in Hx. apply elem_of_union in Hx. destruct Hx as [Hx|Hx].
      * apply elem_of_singleton in Hx. subst x. exact Hur.
      * apply Hr. auto.
    + rewrite Hf in Hx. apply elem_of_app in Hx. destruct Hx as [Hx|Hx].
      * apply Hr. right. rewrite Hf0. apply elem_of_app. auto.
      * apply list_elem_of_filter in Hx. destruct Hx as [_ Hx].
        eapply reachable_link; [exact Hur | apply Hsub, Hx].
Qed.

Lemma closed_under_links_leave st st' :
  closed_under_links w seeds st -> leave st st' ->
  closed_under_links w seeds st'.
Proof.
  intros [Hs Hl Hr] Hleave.
  pose proof (leave_frontier _ _ Hleave) as Ef.
  apply leave_view in Hleave. destruct Hleave as (_ & _ & _ & Ev & _).
  split; rewrite ?Ef, ?Ev; assumption.
Qed.

(** When the loop is left with an empty frontier, every reachable URL has
    been visited. *)
Lemma closed_under_links_complete st :
  closed_under_links w seeds st -> frontier st = [] ->
  forall u, reachable w seeds u <-> u ∈ visited_links st.
Proof.
  intros [Hs Hl Hr] Hf u. split.
  - induction 1 as [u Hu | u v _ IH Hv].
    + destruct (Hs u Hu) as [H|H]; [exact H|]. rewrite Hf in H. inversion H.
    + destruct (Hl u v IH Hv) as [H|H]; [exact H|]. rewrite Hf in H.
      inversion H.
  - intros Hu. apply Hr. auto.
Qed.

End Traversal.

Lemma frontier_loop_entry c h :
  frontier (loop_entry c h) = deref h (self_to_visit_list c).
Proof. exact (frontier_initial_state c h). Qed.

Lemma closed_under_links_entry w c h :
  closed_under_links w (deref h (self_to_visit_list c)) (loop_entry c h).
Proof.
  split.
  - intros u Hu. right. rewrite frontier_loop_entry. exact Hu.
  - intros u v Hu. simpl in Hu. set_solver.
  - intros u [Hu|Hu].
    + simpl in Hu. set_solver.
    + apply reachable_seed. rewrite frontier_loop_entry in Hu. exact Hu.
Qed.

Lemma closed_under_links_run_loop w c h :
  closed_under_links w (deref h (self_to_visit_list c))
    (run_loop w (loop_entry c h)).
Proof.
  apply (run_loop_invariant w
           (closed_under_links w (deref h (self_to_visit_list c)))).
  - apply closed_under_links_step.
  - apply closed_under_links_leave.
  - apply closed_under_links_entry.
Qed.

Lemma finish_frontier st : frontier (fst (finish st)) = frontier st.
Proof.
  destruct (finish_fields st) as (_ & Et & Eh & _).
  unfold frontier. rewrite Et, Eh. reflexivity.
Qed.

Lemma reachable_nonempty w seeds u : reachable w seeds u -> seeds ≠ [].
Proof.
  induction 1 as [u Hu | u v _ IH _]; [|exact IH].
  intros ->. inversion Hu.
Qed.

(** X1. The traversal is sound and, when it is not cut by the budget,
    complete: every visited URL is reachable from [self.to_visit_list]
    through the PDF links of the pages, and when the run ends with an empty
    frontier every reachable URL has been visited. *)
Theorem traversal_visits_reachable w c h :
  let st := fst (load_from_state w c h) in
  let seeds := deref h (self_to_visit_list c) in
  (forall u, u ∈ visited_links st -> reachable w seeds u)
  /\ (frontier st = [] ->
      forall u, reachable w seeds u -> u ∈ visited_links st).
Proof.
  intros st seeds. subst st seeds.
  destruct (deref h (self_to_visit_list c)) as [|x l] eqn:Hd.
  - rewrite (load_from_state_empty w c h Hd). simpl. split.
    + intros u Hu. set_solver.
    + intros _ u Hu. apply reachable_nonempty in Hu. congruence.
  - rewrite load_from_state_nonempty by (rewrite Hd; discriminate).
    destruct (finish_fields (run_loop w (loop_entry c h)))
      as (_ & _ & _ & Ev & _).
    rewrite finish_frontier, Ev. rewrite <- Hd.
    pose proof (closed_under_links_run_loop w c h) as Hcl. split.
    + intros u Hu. apply (cl_reachable _ _ _ Hcl). auto.
    + intros Hf u Hu.
      apply (closed_under_links_complete w _ _ Hcl Hf). exact Hu.
Qed.

Lemma traversal_visits_reachable_witness :
  frontier (fst (load_from_state bad_href_world (connector1 10)
                   (store1 [seed_url]))) = []
  /\ pdf_url1 ∈ visited_links (fst (load_from_state bad_href_world
                                      (connector1 10) (store1 [seed_url]))).
Proof.
  assert (Hf : frontier (fst (load_from_state bad_href_world (connector1 10)
                                (store1 [seed_url]))) = []) by reflexivity.
  split; [exact Hf|].
  destruct (traversal_visits_reachable bad_href_world (connector1 10)
              (store1 [seed_url])) as [_ H].
  apply (H Hf). eapply reachable_link.
  - apply reachable_seed. apply list_elem_of_singleton. reflexivity.
  - vm_compute. apply list_elem_of_here.
Defined.

(** ** What a whole run did, attempt by attempt *)

Lemma run_attempted w c h :
  let st := fst (load_from_state w c h) in
  exists vs,
    NoDup vs
    /\ visited_links st = list_to_set vs
    /\ concat (yields (trace st))
       = flat_map (fun u => attempt_docs u (attempt_of w u)) vs
    /\ at_least_one_doc st
       = existsb (fun u => attempt_ok (attempt_of w u)) vs
    /\ opened (trace st)
       = flat_map (fun u => opened (attempt_events u (attempt_of w u))) vs
    /\ closed (trace st)
       = flat_map (fun u => closed (attempt_events u (attempt_of w u))) vs.
Proof.
  intros st. subst st.
  destruct (deref h (self_to_visit_list c)) as [|x l] eqn:Hd.
  - rewrite (load_from_state_empty w c h Hd). exists []. simpl.
    repeat split. apply NoDup_nil_2.
  - rewrite load_from_state_nonempty by (rewrite Hd; discriminate).
    destruct (attempted_run_loop w c h) as [vs [Hnd Hv Hg Ho Hc Hp Hok Hs]].
    destruct (finish_fields (run_loop w (loop_entry c h)))
      as (_ & _ & _ & Ev & _ & Ea & _).
    exists vs. rewrite Ev, Ea, finish_produced.
    unfold opened, closed. rewrite !finish_observed by reflexivity.
    repeat split; assumption.
Qed.

Lemma attempt_result_Raise a e :
  attempt_result a = Raise e -> attempt_ok a = false.
Proof. destruct a; simpl; [reflexivity..|discriminate]. Qed.

Lemma attempt_ok_Success w u :
  attempt_ok (attempt_of w u) = true ->
  exists soup links, attempt_of w u = Success soup links.
Proof. destruct (attempt_of w u); try discriminate. eauto. Qed.

(** X2. A page whose [try] body raises does not stop the run: the exception
    is caught in that iteration, its message is recorded in [last_error] and
    logged, the URL stays visited, [at_least_one_doc] is left as it was, and
    the loop goes on from the resulting state. *)
Theorem failed_page_is_isolated w st rest u e :
  frontier st = rest ++ [u] ->
  loaded_count st + 1 <= MAX_PAGES_TO_VISIT ->
  u ∉ visited_links st ->
  attempt_result (attempt_of w u) = Raise e ->
  exists st',
    iteration w st = inl st'
    /\ last_error st' = Some (error_message u e)
    /\ errors (trace st') = errors (trace st) ++ [error_message u e]
    /\ visited_links st' = {[u]} ∪ visited_links st
    /\ at_least_one_doc st' = at_least_one_doc st
    /\ run_loop w st = run_loop w st'.
Proof.
  intros Hf Hle Hout Hr.
  destruct (iteration_continues w st rest u Hf Hle) as [st' Hit].
  exists st'. split; [exact Hit|].
  pose proof (run_loop_unfold w st) as Hloop. rewrite Hit in Hloop.
  apply iteration_inl, (step_view w) in Hit.
  destruct Hit as (rest' & u' & [(Hin & V & _) | (_ & V & El & Ee)]);
    pose proof (sv_frontier0 _ _ _ _ _ _ _ _ V) as Hf';
    rewrite Hf in Hf'; apply app_inj_tail in Hf'; destruct Hf' as [<- <-].
  - contradiction.
  - rewrite Hr in El, Ee. split; [exact El|]. split; [exact Ee|].
    split; [apply (sv_visited _ _ _ _ _ _ _ _ V)|]. split; [|exact Hloop].
    rewrite (sv_at_least_one_doc _ _ _ _ _ _ _ _ V).
    rewrite (attempt_result_Raise _ _ Hr). apply orb_false_r.
Qed.

Lemma failed_page_is_isolated_witness :
  exists st',
    iteration timeout_world (state_with_frontier ["a"; "b"]) = inl st'
    /\ last_error st' = Some (error_message "b" "Timeout 30000ms exceeded.").
Proof.
  destruct (failed_page_is_isolated timeout_world
              (state_with_frontier ["a"; "b"]) ["a"] "b"
              "Timeout 30000ms exceeded.")
    as (st' & Hit & El & _).
  - reflexivity.
  - vm_compute. discriminate.
  - vm_compute. set_solver.
  - reflexivity.
  - exists st'. split; [exact Hit | exact El].
Defined.

(** ** Batches, iteration by iteration *)

Lemma attempt_ok_result a :
  attempt_result a = if attempt_ok a then Ok tt
                     else attempt_result a.
Proof. destruct a; reflexivity. Qed.

(** What an iteration does to [doc_batch] and to the batches yielded: the
    documents [docs] of the attempt are appended, and the batch is yielded
    and emptied exactly when the [try] body completed ([ok]) and the batch
    has reached [self.batch_size]. *)
Lemma step_batches w st st' :
  step w st st' ->
  exists docs ok,
    ((docs = [] /\ ok = false)
     \/ (exists u, (u ∉ visited_links st)
                   /\ docs = attempt_docs u (attempt_of w u)
                   /\ ok = attempt_ok (attempt_of w u)))
    /\ self st' = self st
    /\ if ok && (self_batch_size (self st)
                  <=? Z.of_nat (length (doc_batch st ++ docs)))
       then yields (trace st') = yields (trace st) ++ [doc_batch st ++ docs]
            /\ doc_batch st' = []
       else yields (trace st') = yields (trace st)
            /\ doc_batch st' = doc_batch st ++ docs.
Proof.
  intros [rest u Hf Hle Hin -> | rest u st1 Hf Hle Hin Hext ->].
  - exists [], false. split; [left; auto|]. split; [reflexivity|]. simpl.
    rewrite app_nil_r. split; [|reflexivity].
    unfold yields, popped. simpl. apply omap_snoc_None. reflexivity.
  - exists (attempt_docs u (attempt_of w u)), (attempt_ok (attempt_of w u)).
    split; [right; eauto|].
    destruct Hext as [Xs _ _ _ _ _ _ Xd _ Xtr].
    assert (Hy : yields (trace st1) = yields (trace st)).
    { unfold yields. rewrite Xtr. unfold entered, popped. simpl.
      rewrite !omap_app. simpl.
      fold (yields (attempt_events u (attempt_of w u))).
      rewrite attempt_events_yields, !app_nil_r. reflexivity. }
    simpl in Xs, Xd.
    destruct (settle_fields u (attempt_result (attempt_of w u)) st1)
      as (Es & _).
    split; [congruence|].
    destruct (attempt_of w u) as [e|e|soup links cl e|soup links]; simpl;
      try (split; [unfold yields in *; rewrite omap_snoc_None by reflexivity;
                   exact Hy | exact Xd]).
    unfold flush_if_full. rewrite Xs, Xd.
    destruct (_ <=? _); simpl.
    + split; [|reflexivity]. unfold yields in *.
      erewrite omap_snoc_Some by reflexivity.
      rewrite Hy. reflexivity.
    + split; [exact Hy | exact Xd].
Qed.

(** ** One failing page among the reachable ones *)

Lemma load_from_state_returns w c h :
  deref h (self_to_visit_list c) ≠ [] ->
  at_least_one_doc (fst (load_from_state w c h)) = true ->
  snd (load_from_state w c h) = Returned.
Proof.
  intros Hd. rewrite (load_from_state_nonempty w c h Hd).
  destruct (finish_fields (run_loop w (loop_entry c h)))
    as (_ & _ & _ & _ & _ & Ea & _).
  rewrite finish_outcome, Ea. intros ->. reflexivity.
Qed.

(** X3. When the run is not cut by the page budget (it ends with an empty
    frontier) and the [try] body completes for every reachable URL except
    possibly one, [bad], and some other URL is reachable, the run returns
    normally and has yielded the Document of every reachable URL other than
    [bad]. *)
Theorem one_failing_page_does_not_fail_run w c h bad :
  let st := fst (load_from_state w c h) in
  let seeds := deref h (self_to_visit_list c) in
  frontier st = [] ->
  (forall u, reachable w seeds u -> u ≠ bad ->
             attempt_ok (attempt_of w u) = true) ->
  (exists u, reachable w seeds u /\ u ≠ bad) ->
  snd (load_from_state w c h) = Returned
  /\ (forall u, reachable w seeds u -> u ≠ bad ->
        exists soup, content w u = Ok soup
                     /\ make_document u soup ∈ concat (yields (trace st))).
Proof.
  intros st seeds Hf Hok (u0 & Hr0 & Hne0).
  destruct (traversal_visits_reachable w c h) as [_ Hcomplete].
  specialize (Hcomplete Hf).
  destruct (run_attempted w c h) as (vs & Hnd & Hv & Hdocs & Halod & _).
  fold st in Hv, Hdocs, Halod, Hcomplete.
  assert (Hvs : forall u, reachable w seeds u -> In u vs).
  { intros u Hu. apply list_elem_of_In.
    apply Hcomplete in Hu. rewrite Hv in Hu.
    apply elem_of_list_to_set in Hu. exact Hu. }
  split.
  - apply load_from_state_returns.
    + exact (reachable_nonempty w _ _ Hr0).
    + fold st. rewrite Halod. apply existsb_exists.
      exists u0. split; [apply Hvs, Hr0 | apply Hok; assumption].
  - intros u Hu Hne.
    destruct (attempt_ok_Success w u (Hok u Hu Hne)) as (soup & links & Ha).
    exists soup. split; [apply (attempt_of_Success w u soup links Ha)|].
    rewrite Hdocs. apply list_elem_of_In, in_flat_map.
    exists u. split; [apply Hvs, Hu|]. rewrite Ha. simpl. auto.
Qed.

(** In [linked_world] the seed page leads to [plan_url], whose navigation
    fails, and to [pdf_url1]: the failure is recorded and the run returns. *)
Lemma one_failing_page_does_not_fail_run_witness :
  reachable linked_world [seed_url] plan_url
  /\ attempt_ok (attempt_of linked_world plan_url) = false
  /\ errors (trace (fst (load_from_state linked_world (connector1 10)
                           (store1 [seed_url]))))
     = [error_message plan_url "net::ERR_ABORTED"]
  /\ snd (load_from_state linked_world (connector1 10) (store1 [seed_url]))
     = Returned
  /\ exists soup,
       content linked_world pdf_url1 = Ok soup
       /\ make_document pdf_url1 soup
          ∈ concat (yields (trace (fst (load_from_state linked_world
                                          (connector1 10)
                                          (store1 [seed_url]))))).
Proof.
  assert (Hseed : reachable linked_world [seed_url] seed_url).
  { apply reachable_seed. apply list_elem_of_singleton. reflexivity. }
  assert (Hplan : reachable linked_world [seed_url] plan_url).
  { eapply reachable_link; [exact Hseed|]. vm_compute. apply list_elem_of_here. }
  assert (Hpdf : reachable linked_world [seed_url] pdf_url1).
  { eapply reachable_link; [exact Hseed|]. vm_compute.
    apply list_elem_of_further, list_elem_of_here. }
  split; [exact Hplan|]. split; [reflexivity|]. split; [reflexivity|].
  destruct (one_failing_page_does_not_fail_run linked_world (connector1 10)
              (store1 [seed_url]) plan_url) as [Hret Hdocs].
  - reflexivity.
  - intros u _ Hne. unfold attempt_of.
    cbn [new_page goto content close linked_world].
    destruct (String.eqb_spec u plan_url) as [->|_]; [congruence|].
    destruct (String.eqb_spec u seed_url) as [->|_]; reflexivity.
  - exists pdf_url1. split; [exact Hpdf | discriminate].
  - split; [exact Hret|]. apply Hdocs; [exact Hpdf | discriminate].
Defined.

(** ** The documents of a run *)

Lemma attempt_docs_ids u a :
  map doc_id (attempt_docs u a) = if attempt_rendered a then [u] else [].
Proof. destruct a; reflexivity. Qed.

Lemma attempt_docs_spec w u d :
  d ∈ attempt_docs u (attempt_of w u)
  <-> new_page w u = Ok tt /\ goto w u = Ok tt
      /\ exists soup, content w u = Ok soup /\ d = make_document u soup.
Proof.
  unfold attempt_of.
  destruct (new_page w u) as [[]|e1]; simpl.
  2:{ split; [intros H; inversion H | intros (H & _); discriminate]. }
  destruct (goto w u) as [[]|e2]; simpl.
  2:{ split; [intros H; inversion H | intros (_ & H & _); discriminate]. }
  destruct (content w u) as [soup|e3]; simpl.
  2:{ split; [intros H; inversion H
             | intros (_ & _ & soup & H & _); discriminate]. }
  assert (Hd : d ∈ [make_document u soup]
               <-> Ok tt = Ok tt /\ Ok tt = Ok tt
                   /\ exists soup', Ok soup = Ok soup'
                                    /\ d = make_document u soup').
  { rewrite list_elem_of_singleton. split.
    - intros ->. eauto.
    - intros (_ & _ & soup' & E & ->). inversion E. reflexivity. }
  destruct (resolve w u (a_hrefs soup)) as [links [e4|]]; simpl; [exact Hd|].
  destruct (close w u) as [[]|e5]; simpl; exact Hd.
Qed.

Lemma map_flat_map {A B C : Type} (g : B -> C) (f : A -> list B) (l : list A) :
  map g (flat_map f l) = flat_map (fun x => map g (f x)) l.
Proof.
  induction l as [|x l IH]; simpl; [reflexivity|].
  rewrite map_app, IH. reflexivity.
Qed.

Lemma yields_nonempty_step w st st' :
  Forall (fun b => b ≠ []) (yields (trace st)) -> step w st st' ->
  Forall (fun b => b ≠ []) (yields (trace st')).
Proof.
  intros H Hstep. apply (step_batches w) in Hstep.
  destruct Hstep as (docs & ok & Hcase & _ & Hb).
  destruct (ok && _) eqn:Hflush; destruct Hb as [Hy _]; rewrite Hy; [|exact H].
  apply Forall_app. split; [exact H|]. apply Forall_singleton.
  apply andb_true_iff in Hflush. destruct Hflush as [Hok _].
  destruct Hcase as [[_ ->] | (u & _ & -> & ->)]; [discriminate|].
  destruct (attempt_of w u); try discriminate. simpl.
  intros E. apply app_eq_nil in E. destruct E as [_ E]. discriminate.
Qed.

Lemma yields_nonempty_run_loop w c h :
  Forall (fun b => b ≠ []) (yields (trace (run_loop w (loop_entry c h)))).
Proof.
  apply (run_loop_invariant w
           (fun st => Forall (fun b => b ≠ []) (yields (trace st)))).
  - apply yields_nonempty_step.
  - intros st st' H Hl. apply leave_view in Hl.
    destruct Hl as (_ & _ & _ & _ & _ & _ & _ & _ & Htr).
    unfold yields. rewrite Htr by reflexivity. exact H.
  - apply Forall_nil_2.
Qed.

Lemma fetched_once_rendered w (vs : list string) :
  NoDup vs ->
  NoDup (map doc_id (flat_map (fun u => attempt_docs u (attempt_of w u)) vs)).
Proof.
  intros Hnd. rewrite map_flat_map.
  rewrite (flat_map_ext _ (fun u => if attempt_rendered (attempt_of w u)
                                    then [u] else []))
    by (intros u; apply attempt_docs_ids).
  exact (proj1 (fetched_once (fun u => attempt_rendered (attempt_of w u))
                  vs Hnd)).
Qed.

(** X4. The documents yielded by a run, all batches together: there is
    exactly one for each visited URL whose page was opened, loaded and
    parsed, it is the Document built from that page, no two of them have the
    same [id], and no yielded batch is empty. *)
Theorem documents_of_a_run w c h :
  let st := fst (load_from_state w c h) in
  let docs := concat (yields (trace st)) in
  NoDup (map doc_id docs)
  /\ (forall d, d ∈ docs
                <-> doc_id d ∈ visited_links st
                    /\ new_page w (doc_id d) = Ok tt
                    /\ goto w (doc_id d) = Ok tt
                    /\ exists soup, content w (doc_id d) = Ok soup
                                    /\ d = make_document (doc_id d) soup)
  /\ Forall (fun b => b ≠ []) (yields (trace st)).
Proof.
  intros st docs.
  destruct (run_attempted w c h) as (vs & Hnd & Hv & Hdocs & _).
  fold st in Hv, Hdocs. fold docs in Hdocs.
  split; [rewrite Hdocs; apply fetched_once_rendered, Hnd|]. split.
  - intros d. rewrite Hdocs, list_elem_of_In, in_flat_map. split.
    + intros (u & Hu & Hd). apply list_elem_of_In in Hu, Hd.
      pose proof (proj1 (attempt_docs_spec w u d) Hd)
        as (Hn & Hg & soup & Hc & ->).
      simpl. rewrite Hv, elem_of_list_to_set. eauto 8.
    + intros (Hin & Hn & Hg & soup & Hc & Hd).
      exists (doc_id d). split.
      * apply list_elem_of_In. rewrite Hv in Hin.
        apply elem_of_list_to_set in Hin. exact Hin.
      * apply list_elem_of_In, attempt_docs_spec. eauto 8.
  - subst st. destruct (deref h (self_to_visit_list c)) as [|x l] eqn:Hd.
    + rewrite (load_from_state_empty w c h Hd). apply Forall_nil_2.
    + rewrite load_from_state_nonempty by (rewrite Hd; discriminate).
      rewrite finish_yields. apply Forall_app.
      split; [apply yields_nonempty_run_loop|].
      destruct (doc_batch (run_loop w (loop_entry c h))) eqn:Hb.
      * apply Forall_nil_2.
      * apply Forall_singleton. discriminate.
Qed.

(** ** Batch sizes when nothing raises after an append *)

Lemma batches_full_step w c st st' :
  no_late_failure w ->
  batches_full c st -> step w st st' -> batches_full c st'.
Proof.
  intros Hw (Hs & Hy & Hb) Hstep. apply (step_batches w) in Hstep.
  destruct Hstep as (docs & ok & Hcase & Hs' & Hflush).
  assert (Hdocs : (docs = [] /\ ok = false)
                  \/ (exists d, docs = [d] /\ ok = true)).
  { destruct Hcase as [H | (u & _ & -> & ->)]; [left; exact H|].
    specialize (Hw u).
    destruct (attempt_of w u); simpl in *; eauto; discriminate (Hw eq_refl). }
  rewrite Hs in Hflush.
  destruct Hdocs as [[-> ->] | (d & -> & ->)]; simpl in Hflush.
  - destruct Hflush as [Ey Eb]. rewrite app_nil_r in Eb.
    split; [congruence|]. rewrite Ey, Eb. auto.
  - rewrite length_app in Hflush. simpl in Hflush.
    destruct (Z.leb_spec (self_batch_size c)
                (Z.of_nat (length (doc_batch st) + 1))) as [Hle|Hlt];
      destruct Hflush as [Ey Eb]; (split; [congruence|]); rewrite Ey, Eb.
    + split; [|simpl; lia]. apply Forall_app. split; [exact Hy|].
      apply Forall_singleton. rewrite length_app. simpl. lia.
    + split; [exact Hy|]. rewrite length_app. simpl. lia.
Qed.

Lemma batches_full_run_loop w c h :
  1 <= self_batch_size c -> no_late_failure w ->
  batches_full c (run_loop w (loop_entry c h)).
Proof.
  intros HB Hw. apply (run_loop_invariant w (batches_full c)).
  - intros st st'. apply batches_full_step, Hw.
  - intros st st' (Hs & Hy & Hb) Hl. apply leave_view in Hl.
    destruct Hl as (Es & _ & _ & _ & Ed & _ & _ & _ & Htr).
    unfold batches_full, yields. rewrite Es, Ed, Htr by reflexivity. auto.
  - split; [reflexivity|]. split; [apply Forall_nil_2|]. simpl. lia.
Qed.

Lemma length_concat_full (B : Z) (bs : list (list Document)) :
  Forall (fun b => Z.of_nat (length b) = B) bs ->
  Z.of_nat (length (concat bs)) = B * Z.of_nat (length bs).
Proof.
  induction 1 as [|b bs Hb _ IH]; simpl; [lia|].
  rewrite length_app. lia.
Qed.

(** X5. With [batch_size >= 1] and no raise after a Document is appended,
    the batches of a run are cut at [batch_size]: every yielded batch except
    possibly the last has exactly [batch_size] documents, the last has
    between 1 and [batch_size], and a run that produces [D] documents yields
    the ceiling of [D / batch_size] batches. *)
Theorem batches_have_batch_size w c h :
  1 <= self_batch_size c ->
  no_late_failure w ->
  let bs := yields (trace (fst (load_from_state w c h))) in
  let B := self_batch_size c in
  (exists full rest,
      bs = full ++ rest
      /\ Forall (fun b => Z.of_nat (length b) = B) full
      /\ (rest = [] \/ exists b, rest = [b] /\ 0 < Z.of_nat (length b) < B))
  /\ Z.of_nat (length bs) = (Z.of_nat (length (concat bs)) + B - 1) / B.
Proof.
  intros HB Hw bs B.
  assert (Hsplit : exists full rest,
      bs = full ++ rest
      /\ Forall (fun b => Z.of_nat (length b) = B) full
      /\ (rest = [] \/ exists b, rest = [b] /\ 0 < Z.of_nat (length b) < B)).
  { subst bs. destruct (deref h (self_to_visit_list c)) as [|x l] eqn:Hd.
    - rewrite (load_from_state_empty w c h Hd). exists [], []. simpl.
      split; [reflexivity|]. split; [apply Forall_nil_2 | left; reflexivity].
    - rewrite load_from_state_nonempty by (rewrite Hd; discriminate).
      rewrite finish_yields.
      destruct (batches_full_run_loop w c h HB Hw) as (_ & Hy & Hb).
      eexists _, _. split; [reflexivity|]. split; [exact Hy|].
      destruct (doc_batch (run_loop w (loop_entry c h))) as [|d ds] eqn:Hdb.
      + left. reflexivity.
      + right. eexists. split; [reflexivity|]. simpl in *. fold B in Hb. lia. }
  split; [exact Hsplit|].
  destruct Hsplit as (full & rest & -> & Hfull & Hrest).
  rewrite concat_app, !length_app, !Nat2Z.inj_add.
  rewrite (length_concat_full B full Hfull).
  destruct Hrest as [-> | (b & -> & Hb)]; simpl; rewrite ?app_nil_r.
  - apply (Z.div_unique _ _ _ (B - 1)); fold B in HB; lia.
  - apply (Z.div_unique _ _ _ (Z.of_nat (length b) - 1)); fold B in HB; lia.
Qed.

Lemma batches_have_batch_size_witness :
  1 <= self_batch_size (connector1 1) /\ no_late_failure quiet_world
  /\ Z.of_nat (length (yields (trace (fst (load_from_state quiet_world
                                             (connector1 1)
                                             (store1 ["a"; "b"; "c"]))))))
     = (Z.of_nat (length (concat (yields (trace (fst (load_from_state
          quiet_world (connector1 1) (store1 ["a"; "b"; "c"])))))))
        + self_batch_size (connector1 1) - 1) / self_batch_size (connector1 1).
Proof.
  assert (HB : 1 <= self_batch_size (connector1 1)) by (simpl; lia).
  assert (Hw : no_late_failure quiet_world) by (intros u _; reflexivity).
  split; [exact HB|]. split; [exact Hw|].
  exact (proj2 (batches_have_batch_size quiet_world (connector1 1)
                  (store1 ["a"; "b"; "c"]) HB Hw)).
Defined.

(** ** The browser session *)

Lemma attempt_events_loop u a :
  Forall (fun e => is_session_event e = false) (attempt_events u a).
Proof.
  destruct a as [| | ? ? [] ?|]; simpl; repeat constructor.
Qed.

Lemma step_trace w st st' :
  step w st st' ->
  exists evs, trace st' = trace st ++ evs
              /\ Forall (fun e => is_session_event e = false) evs.
Proof.
  intros [rest u Hf Hle Hin -> | rest u st1 Hf Hle Hin Hext ->].
  - exists [EvPop u]. split; [reflexivity | repeat constructor].
  - pose proof (ext_trace _ _ _ _ _ _ Hext) as Xtr.
    unfold entered, popped in Xtr. simpl in Xtr.
    unfold settle, flush_if_full.
    destruct (attempt_result (attempt_of w u)) as [[]|e];
      [destruct (_ <=? _)|]; simpl; rewrite Xtr, <- ?app_assoc;
      eexists; (split; [reflexivity|]);
      repeat (apply Forall_app; split);
      try apply attempt_events_loop; repeat constructor.
Qed.

Lemma leave_trace st st' :
  leave st st' ->
  exists evs, trace st' = trace st ++ evs
              /\ Forall (fun e => is_session_event e = false) evs.
Proof.
  intros [Hf -> | Hf Hlt ->].
  - exists []. split; [symmetry; apply app_nil_r | constructor].
  - exists [EvLogWarning]. split; [reflexivity | repeat constructor].
Qed.

Lemma run_loop_trace w c h :
  exists evs, trace (run_loop w (loop_entry c h)) = EvStartPlaywright :: evs
              /\ Forall (fun e => is_session_event e = false) evs.
Proof.
  apply (run_loop_invariant w
           (fun st => exists evs,
                trace st = EvStartPlaywright :: evs
                /\ Forall (fun e => is_session_event e = false) evs)).
  - intros st st' (evs & Ht & Hev) Hstep.
    destruct (step_trace w _ _ Hstep) as (evs' & Ht' & Hev').
    exists (evs ++ evs'). rewrite Ht', Ht. split; [reflexivity|].
    apply Forall_app. auto.
  - intros st st' (evs & Ht & Hev) Hl.
    destruct (leave_trace _ _ Hl) as (evs' & Ht' & Hev').
    exists (evs ++ evs'). rewrite Ht', Ht. split; [reflexivity|].
    apply Forall_app. auto.
  - exists []. split; [reflexivity | constructor].
Qed.

Lemma run_trace w c h :
  deref h (self_to_visit_list c) ≠ [] ->
  exists evs,
    trace (fst (load_from_state w c h))
    = EvStartPlaywright :: evs ++ [EvStopPlaywright]
    /\ Forall (fun e => is_session_event e = false) evs.
Proof.
  intros Hd. rewrite (load_from_state_nonempty w c h Hd).
  destruct (run_loop_trace w c h) as (evs & Ht & Hev).
  unfold finish.
  destruct (doc_batch (run_loop w (loop_entry c h))) as [|d ds] eqn:Hb.
  - exists evs. split; [|exact Hev].
    destruct (negb _); [destruct (opt_truthy _)|]; simpl; rewrite Ht;
      reflexivity.
  - exists (evs ++ [EvYield (d :: ds)]). split.
    + destruct (negb _); [destruct (opt_truthy _)|]; simpl; rewrite Ht;
        rewrite <- ?app_assoc; reflexivity.
    + apply Forall_app. split; [exact Hev | repeat constructor].
Qed.

Lemma closed_after_is_Some k : forall tr,
  is_Some (closed_after k tr) <-> (k < length (yields tr))%nat.
Proof.
  intros tr. revert k. induction tr as [|e tr IH]; intros k; simpl.
  - split; [intros [x H]; discriminate | lia].
  - unfold yields in *. simpl. destruct (is_yield e) as [b|]; simpl.
    + destruct k as [|k].
      * split; [lia | eauto].
      * rewrite fmap_is_Some, IH. lia.
    + rewrite fmap_is_Some. apply IH.
Qed.

Lemma closed_after_snoc k : forall l e tr',
  is_yield e = None ->
  closed_after k (l ++ [e]) = Some tr' -> closed_after k l = Some tr'.
Proof.
  intros l. revert k. induction l as [|x l IH]; intros k e tr' He H; simpl in *.
  - rewrite He in H. destruct k; discriminate.
  - destruct (is_yield x) as [b|]; [destruct k as [|k]|]; [exact H|..];
      (destruct (closed_after _ (l ++ [e])) as [t|] eqn:Ht; [|discriminate];
       rewrite (IH _ _ _ He Ht); exact H).
Qed.

Lemma closed_after_Forall (P : event -> Prop) k : forall l tr',
  closed_after k l = Some tr' -> Forall P l -> Forall P tr'.
Proof.
  intros l. revert k. induction l as [|x l IH]; intros k tr' H Hall;
    simpl in H; [discriminate|].
  apply Forall_cons in Hall. destruct Hall as [Hx Hl].
  destruct (is_yield x) as [b|]; [destruct k as [|k]|].
  - inversion H. apply Forall_singleton, Hx.
  - destruct (closed_after k l) as [t|] eqn:Ht; [|discriminate].
    inversion H. apply Forall_cons. split; [exact Hx | exact (IH _ _ Ht Hl)].
  - destruct (closed_after k l) as [t|] eqn:Ht; [|discriminate].
    inversion H. apply Forall_cons. split; [exact Hx | exact (IH _ _ Ht Hl)].
Qed.

(** X6. The browser session of a run that has URLs to visit, with
    [start_playwright()] and [playwright.stop()] returning.  Driven to
    exhaustion, the run starts the session before anything else and stops it
    after everything else, once each, also when pages failed.  Closed or
    dropped by its consumer at any of its [yield]s -- every batch is such a
    point -- the run has started the session and never calls
    [playwright.stop()]. *)
Theorem session_stopped_only_when_exhausted w c h :
  deref h (self_to_visit_list c) ≠ [] ->
  let tr := trace (fst (load_from_state w c h)) in
  (exists evs,
      tr = EvStartPlaywright :: evs ++ [EvStopPlaywright]
      /\ Forall (fun e => is_session_event e = false) evs)
  /\ (forall k, is_Some (closed_after k tr) <-> (k < length (yields tr))%nat)
  /\ (forall k tr',
        closed_after k tr = Some tr' ->
        exists evs',
          tr' = EvStartPlaywright :: evs'
          /\ Forall (fun e => is_session_event e = false) evs').
Proof.
  intros Hd tr. destruct (run_trace w c h Hd) as (evs & Ht & Hev).
  fold tr in Ht. split; [eauto|].
  split; [intros k; apply closed_after_is_Some|].
  intros k tr' H. rewrite Ht in H. simpl in H.
  destruct (closed_after k (evs ++ [EvStopPlaywright])) as [t|] eqn:Hc;
    [|discriminate].
  inversion H; subst tr'. exists t. split; [reflexivity|].
  apply closed_after_snoc in Hc; [|reflexivity].
  exact (closed_after_Forall _ _ _ _ Hc Hev).
Qed.

(** With [batch_size = 1] and two pages, closing the generator at the first
    batch leaves the session started and not stopped. *)
Lemma session_stopped_only_when_exhausted_witness :
  exists tr' evs',
    closed_after 0 (trace (fst (load_from_state quiet_world (connector1 1)
                                  (store1 ["a"; "b"]))))
    = Some tr'
    /\ tr' = EvStartPlaywright :: evs'
    /\ EvStopPlaywright ∉ tr'.
Proof.
  assert (Hd : deref (store1 ["a"; "b"]) (self_to_visit_list (connector1 1))
               ≠ []) by (vm_compute; discriminate).
  destruct (session_stopped_only_when_exhausted quiet_world (connector1 1)
              (store1 ["a"; "b"]) Hd) as (_ & Hsome & Hclosed).
  destruct (proj2 (Hsome 0%nat)) as [tr' Htr'].
  - vm_compute. lia.
  - destruct (Hclosed 0%nat tr' Htr') as (evs' & -> & Hev).
    exists (EvStartPlaywright :: evs'), evs'.
    split; [exact Htr'|]. split; [reflexivity|].
    intros Hin. apply elem_of_cons in Hin. destruct Hin as [Hin|Hin];
      [discriminate|].
    rewrite Forall_forall in Hev. specialize (Hev _ Hin). discriminate.
Defined.

(** ** Pages opened and pages closed *)

Lemma opened_attempt_events u a :
  opened (attempt_events u a) = if attempt_opened a then [u] else [].
Proof. destruct a as [| | ? ? [] ?|]; reflexivity. Qed.

Lemma closed_attempt_events u a :
  closed (attempt_events u a) = if attempt_closing a then [u] else [].
Proof. destruct a as [| | ? ? [] ?|]; reflexivity. Qed.

Lemma attempt_closing_spec w u :
  attempt_closing (attempt_of w u) = true
  <-> new_page w u = Ok tt /\ goto w u = Ok tt
      /\ exists soup, content w u = Ok soup
                      /\ snd (resolve w u (a_hrefs soup)) = None.
Proof.
  unfold attempt_of.
  destruct (new_page w u) as [[]|e1]; simpl.
  2:{ split; [discriminate | intros (H & _); discriminate]. }
  destruct (goto w u) as [[]|e2]; simpl.
  2:{ split; [discriminate | intros (_ & H & _); discriminate]. }
  destruct (content w u) as [soup|e3]; simpl.
  2:{ split; [discriminate | intros (_ & _ & soup & H & _); discriminate]. }
  destruct (resolve w u (a_hrefs soup)) as [links [e4|]] eqn:Hr; simpl.
  - split; [discriminate|]. intros (_ & _ & soup' & E & Hn).
    inversion E; subst soup'. rewrite Hr in Hn. discriminate.
  - assert (Hyes : Ok tt = Ok tt /\ Ok tt = Ok tt
                   /\ exists soup', Ok soup = Ok soup'
                        /\ snd (resolve w u (a_hrefs soup')) = None).
    { repeat split. exists soup. rewrite Hr. auto. }
    destruct (close w u) as [[]|e5]; simpl; split; auto.
Qed.

(** X7. In every run a page is opened at most once per URL, exactly for the
    visited URLs for which [context.new_page()] returned; [page.close()] is
    called at most once per URL, only on a page that was opened, and exactly
    for the visited URLs whose page was loaded and parsed and whose PDF links
    were all resolved: every other opened page is left open. *)
Theorem pages_opened_and_closed w c h :
  let st := fst (load_from_state w c h) in
  NoDup (opened (trace st))
  /\ (forall u, u ∈ opened (trace st)
                <-> u ∈ visited_links st /\ new_page w u = Ok tt)
  /\ NoDup (closed (trace st))
  /\ (forall u, u ∈ closed (trace st)
                <-> u ∈ visited_links st
                    /\ new_page w u = Ok tt /\ goto w u = Ok tt
                    /\ exists soup, content w u = Ok soup
                          /\ snd (resolve w u (a_hrefs soup)) = None)
  /\ (forall u, u ∈ closed (trace st) -> u ∈ opened (trace st)).
Proof.
  intros st.
  destruct (run_attempted w c h) as (vs & Hnd & Hv & _ & _ & Ho & Hc).
  fold st in Hv, Ho, Hc.
  rewrite (flat_map_ext _ (fun u => if attempt_opened (attempt_of w u)
                                    then [u] else [])) in Ho
    by (intros u; apply opened_attempt_events).
  rewrite (flat_map_ext _ (fun u => if attempt_closing (attempt_of w u)
                                    then [u] else [])) in Hc
    by (intros u; apply closed_attempt_events).
  destruct (fetched_once (fun u => attempt_opened (attempt_of w u)) vs Hnd)
    as (O1 & O2 & _).
  destruct (fetched_once (fun u => attempt_closing (attempt_of w u)) vs Hnd)
    as (C1 & C2 & _).
  simpl in O1, O2, C1, C2. rewrite <- Ho in O1, O2. rewrite <- Hc in C1, C2.
  assert (Hmem : forall u, u ∈ visited_links st <-> u ∈ vs).
  { intros u. rewrite Hv. apply elem_of_list_to_set. }
  assert (Hopen : forall u, u ∈ opened (trace st)
                            <-> u ∈ visited_links st /\ new_page w u = Ok tt).
  { intros u. rewrite O2, Hmem, attempt_opened_new_page. reflexivity. }
  assert (Hclose : forall u, u ∈ closed (trace st)
       <-> u ∈ visited_links st
           /\ new_page w u = Ok tt /\ goto w u = Ok tt
           /\ exists soup, content w u = Ok soup
                 /\ snd (resolve w u (a_hrefs soup)) = None).
  { intros u. rewrite C2, Hmem, attempt_closing_spec. reflexivity. }
  split; [exact O1|]. split; [exact Hopen|]. split; [exact C1|].
  split; [exact Hclose|].
  intros u Hu. apply Hopen. apply Hclose in Hu. tauto.
Qed.

(** ** When a run returns *)

Lemma attempt_ok_spec w u :
  attempt_ok (attempt_of w u) = true
  <-> new_page w u = Ok tt /\ goto w u = Ok tt
      /\ (exists soup, content w u = Ok soup
                       /\ snd (resolve w u (a_hrefs soup)) = None)
      /\ close w u = Ok tt.
Proof.
  unfold attempt_of.
  destruct (new_page w u) as [[]|e1]; simpl.
  2:{ split; [discriminate | intros (H & _); discriminate]. }
  destruct (goto w u) as [[]|e2]; simpl.
  2:{ split; [discriminate | intros (_ & H & _); discriminate]. }
  destruct (content w u) as [soup|e3]; simpl.
  2:{ split; [discriminate | intros (_ & _ & (soup & H & _) & _); discriminate]. }
  destruct (resolve w u (a_hrefs soup)) as [links [e4|]] eqn:Hr; simpl.
  - split; [discriminate|]. intros (_ & _ & (soup' & E & Hn) & _).
    inversion E; subst soup'. rewrite Hr in Hn. discriminate.
  - destruct (close w u) as [[]|e5]; simpl.
    + split; [|reflexivity]. intros _. repeat split.
      exists soup. rewrite Hr. auto.
    + split; [discriminate | intros (_ & _ & _ & H); discriminate].
Qed.

(** X8. A run returns normally if and only if the [try] body completed for
    at least one visited URL: its page was opened, loaded and parsed, all its
    PDF links were resolved and [page.close()] returned.  Otherwise the run
    raises. *)
Theorem run_returns_iff_a_page_completed w c h :
  let st := fst (load_from_state w c h) in
  snd (load_from_state w c h) = Returned
  <-> exists u, u ∈ visited_links st
                /\ new_page w u = Ok tt /\ goto w u = Ok tt
                /\ (exists soup, content w u = Ok soup
                       /\ snd (resolve w u (a_hrefs soup)) = None)
                /\ close w u = Ok tt.
Proof.
  intros st.
  destruct (run_attempted w c h) as (vs & _ & Hv & _ & Ha & _).
  fold st in Hv, Ha.
  assert (Hex : at_least_one_doc st = true
                <-> exists u, u ∈ visited_links st
                    /\ new_page w u = Ok tt /\ goto w u = Ok tt
                    /\ (exists soup, content w u = Ok soup
                           /\ snd (resolve w u (a_hrefs soup)) = None)
                    /\ close w u = Ok tt).
  { rewrite Ha, existsb_exists. split.
    - intros (u & Hu & Hok). exists u. split.
      + rewrite Hv. apply elem_of_list_to_set, list_elem_of_In, Hu.
      + apply attempt_ok_spec, Hok.
    - intros (u & Hu & Hok). exists u. split.
      + rewrite Hv in Hu. apply elem_of_list_to_set, list_elem_of_In in Hu.
        exact Hu.
      + apply attempt_ok_spec, Hok. }
  rewrite <- Hex. subst st.
  destruct (deref h (self_to_visit_list c)) as [|x l] eqn:Hd.
  - rewrite (load_from_state_empty w c h Hd). simpl. split; discriminate.
  - rewrite load_from_state_nonempty by (rewrite Hd; discriminate).
    destruct (finish_fields (run_loop w (loop_entry c h)))
      as (_ & _ & _ & _ & _ & Ea & _).
    rewrite finish_outcome, Ea.
    destruct (at_least_one_doc (run_loop w (loop_entry c h))).
    + split; reflexivity.
    + destruct (opt_truthy _); split; discriminate.
Qed.

(** ** C3: one failing page among the reachable ones *)




